(** * Trubka: the local offset store and the event pipeline

    A shallow embedding of two Go sources of the consumer:
    - package [kafka], the local offset store ([localOffsetStore] with
      [start], [Store], [Query], [close] and [writeOffsetsToDisk]);
    - package [main], the event loop of [main], [process] and
      [getCheckpoint].

    Go's [int32] and [int64] values are carried as [Z]: the code compares and
    copies them and never computes with them, so no wrap-around is involved.
    Go maps are [gmap]s; the order in which [range] walks a map is not fixed
    by the language and is an explicit argument here. *)

From Stdlib Require Import ZArith.
From stdpp Require Import gmap strings list fin_maps.

Local Open Scope Z_scope.

(** ** Outcomes of a call

    A call either returns, or cannot proceed in the state it is made in (a
    send on a full channel, a receive on an empty open one, a wait that is
    never released, a turn of a loop that is not running, a [range] order
    that does not list the keys of the map), or panics (a send on a closed
    channel, a nil dereference). *)

Inductive outcome (A : Type) : Type :=
| Ret (a : A)
| Stuck
| Panicked.
Arguments Ret {A} a.
Arguments Stuck {A}.
Arguments Panicked {A}.

#[global] Instance outcome_ret : MRet outcome := λ A a, Ret a.
#[global] Instance outcome_bind : MBind outcome := λ A B f m,
  match m with
  | Ret a => f a
  | Stuck => Stuck
  | Panicked => Panicked
  end.

(** ** Channels

    [make(chan T, n)]. For [n = 0] the channel is unbuffered: a send hands the
    value to the receiver at once, and [buf] then records what the receiver
    was handed, oldest first. The offset store requires such a receiver on
    its error channel (the comment on [errors()]). *)

Record chan (A : Type) : Type := Chan {
  buf : list A;
  cap : nat;
  closed : bool
}.
Arguments Chan {A} buf cap closed.
Arguments buf {A} c.
Arguments cap {A} c.
Arguments closed {A} c.

Definition make_chan {A : Type} (n : nat) : chan A := Chan [] n false.

(** [c <- v] *)
Definition chan_send {A : Type} (v : A) (c : chan A) : outcome (chan A) :=
  if closed c then Panicked
  else if bool_decide (cap c = 0%nat ∨ (length (buf c) < cap c)%nat)
       then Ret (Chan (buf c ++ [v]) (cap c) false)
       else Stuck.

(** [close(c)] *)
Definition chan_close {A : Type} (c : chan A) : outcome (chan A) :=
  if closed c then Panicked else Ret (Chan (buf c) (cap c) true).

(** ** The sarama sentinels *)

Module sarama.
Definition OffsetNewest : Z := -1.
Definition OffsetOldest : Z := -2.
End sarama.

(** ** Package kafka: the local offset store *)

Module kafka.

(** The collaborators outside the package: [encoding/gob] on
    [map[int32]int64] and the errors the libraries hand back. [gob_encode]
    gives the bytes left in the buffer together with the encoder's error. *)
Class Gob (Bytes Cause : Type) : Type := {
  gob_encode : gmap Z Z → Bytes * option Cause;
  gob_decode : Bytes → Cause + gmap Z Z
}.

Inductive wrap_msg : Type :=
| FailedToSerialise (topic : string)
| FailedToWrite (topic : string) (toWrite : gmap Z Z)
| FailedToDeserialise (topic : string).

(** Go's [error]: a library error as it is, or one wrapped by
    [errors.Wrapf]. *)
Inductive error (Cause : Type) : Type :=
| Raw (e : Cause)
| Wrapf (e : Cause) (msg : wrap_msg).
Arguments Raw {Cause} e.
Arguments Wrapf {Cause} e msg.

Inductive level : Type := Forced | Verbose | SuperVerbose.

Inductive log_msg : Type :=
| Initialising
| FlushingToDisk
| ClosingStore
| StoreClosed
| WritingOffsets (topic : string) (toWrite : gmap Z Z).

Record progress : Type := Progress {
  topic : string;
  partition : Z;
  offset : Z
}.

Section store.
Context {Bytes Cause : Type} `{!Gob Bytes Cause}.

(** [diskv.Diskv] with the flat transform: one file per key. [wfail] and
    [rfail] script the faults of the disk: each [Write] (each [Read]) takes
    the head of its script, [Some e] makes that call fail with [e], and an
    exhausted script means no fault. A failed write leaves the file as it
    was. *)
Record Diskv : Type := MkDiskv {
  files : gmap string Bytes;
  wfail : list (option Cause);
  rfail : list (option Cause)
}.

Inductive read_result : Type :=
| ReadOk (val : Bytes)
| ReadNotExist
| ReadFailed (e : Cause).

Definition Diskv_Read (key : string) (d : Diskv) : Diskv * read_result :=
  let d' := MkDiskv (files d) (wfail d) (tail (rfail d)) in
  match rfail d with
  | Some e :: _ => (d', ReadFailed e)
  | _ => (d', match files d !! key with
              | Some val => ReadOk val
              | None => ReadNotExist
              end)
  end.

Definition Diskv_Write (key : string) (val : Bytes) (d : Diskv)
  : Diskv * option Cause :=
  match wfail d with
  | Some e :: _ => (MkDiskv (files d) (tail (wfail d)) (rfail d), Some e)
  | _ => (MkDiskv (<[key := val]> (files d)) (tail (wfail d)) (rfail d), None)
  end.

Record localOffsetStore : Type := MkStore {
  db : option Diskv;
  printer : list (level * log_msg);
  wg : nat;
  writeErrors : chan (error Cause);
  in_ : chan progress;
  offsets : gmap string (gmap Z Z)
}.

Definition with_db (d : option Diskv) (s : localOffsetStore) :=
  MkStore d (printer s) (wg s) (writeErrors s) (in_ s) (offsets s).
Definition with_wg (n : nat) (s : localOffsetStore) :=
  MkStore (db s) (printer s) n (writeErrors s) (in_ s) (offsets s).
Definition with_writeErrors (c : chan (error Cause)) (s : localOffsetStore) :=
  MkStore (db s) (printer s) (wg s) c (in_ s) (offsets s).
Definition with_in (c : chan progress) (s : localOffsetStore) :=
  MkStore (db s) (printer s) (wg s) (writeErrors s) c (offsets s).
Definition with_offsets (m : gmap string (gmap Z Z)) (s : localOffsetStore) :=
  MkStore (db s) (printer s) (wg s) (writeErrors s) (in_ s) m.

(** [s.printer.Log] / [s.printer.Logf] *)
Definition Log (l : level) (m : log_msg) (s : localOffsetStore) :=
  MkStore (db s) (printer s ++ [(l, m)]) (wg s) (writeErrors s) (in_ s)
          (offsets s).

(** [newLocalOffsetStore(printer, base)]: [d] is what [diskv.New] finds
    under [base]. The error the source returns beside the store is always
    nil. *)
Definition newLocalOffsetStore (prn : list (level * log_msg)) (d : Diskv)
  : localOffsetStore :=
  MkStore (Some d) (prn ++ [(Verbose, Initialising)]) 0
          (make_chan 0) (make_chan 100) ∅.

(** [s.writeErrors <- e] *)
Definition send_error (e : error Cause) (s : localOffsetStore)
  : outcome localOffsetStore :=
  c ← chan_send e (writeErrors s); mret (with_writeErrors c s).

(** [s.db.Write(topic, bytes)]; a nil [db] is dereferenced. *)
Definition db_Write (key : string) (val : Bytes) (s : localOffsetStore)
  : outcome (localOffsetStore * option Cause) :=
  match db s with
  | None => Panicked
  | Some d => let '(d', err) := Diskv_Write key val d in
              mret (with_db (Some d') s, err)
  end.

(** The inner loop of [writeOffsetsToDisk]: the entries that are neither
    sentinel. *)
Definition toWrite_of (offs : gmap Z Z) : gmap Z Z :=
  filter (λ po, po.2 ≠ sarama.OffsetNewest ∧ po.2 ≠ sarama.OffsetOldest) offs.

(** The body of [for topic, offsets := range s.offsets], over the entries
    in the order [range] yields them. An empty [toWrite] executes
    [return]: the entries after it are not visited. *)
Fixpoint writeOffsets_range (entries : list (string * gmap Z Z))
                            (s : localOffsetStore) : outcome localOffsetStore :=
  match entries with
  | [] => mret s
  | (topic, offs) :: rest =>
      let toWrite := toWrite_of offs in
      if decide (size toWrite = 0%nat) then mret s
      else
        let '(buff, err) := gob_encode toWrite in
        s ← match err with
            | Some e => send_error (Wrapf e (FailedToSerialise topic)) s
            | None => mret s
            end;
        let s := Log SuperVerbose (WritingOffsets topic toWrite) s in
        '(s, err) ← db_Write topic buff s;
        s ← match err with
            | Some e => send_error (Wrapf e (FailedToWrite topic toWrite)) s
            | None => mret s
            end;
        writeOffsets_range rest s
  end.

(** The entries of [m] in the key order [order]. *)
Definition range_in_order {V : Type} (order : list string)
                          (m : gmap string V) : list (string * V) :=
  omap (λ k, (k,.) <$> m !! k) order.

(** [writeOffsetsToDisk]: [order] is the order in which this execution of
    [range s.offsets] yields the topics; it has to list each topic of the
    map once. *)
Definition writeOffsetsToDisk (order : list string) (s : localOffsetStore)
  : outcome localOffsetStore :=
  if decide (order ≡ₚ (map_to_list (offsets s)).*1)
  then writeOffsets_range (range_in_order order (offsets s)) s
  else Stuck.

(** [start]: [wg.Add(1)] and the goroutine; [wg] counts the live loops. *)
Definition start (s : localOffsetStore) : localOffsetStore :=
  with_wg (S (wg s)) s.

(** What [select] picks in one iteration of the loop of [start], with the
    order [range] would take if this iteration flushes. *)
Inductive selected : Type :=
| TickerC (order : list string)
| InRecv (order : list string).

(** [s.offsets[p.topic][p.partition] = p.offset], creating the inner map
    when the topic is new. *)
Definition merge (p : progress) (m : gmap string (gmap Z Z))
  : gmap string (gmap Z Z) :=
  let m := match m !! topic p with
           | Some _ => m
           | None => <[topic p := ∅]> m
           end in
  <[topic p := <[partition p := offset p]> (default ∅ (m !! topic p))]> m.

(** One iteration of [for { select { ... } }]. *)
Definition loop_iteration (c : selected) (s : localOffsetStore)
  : outcome localOffsetStore :=
  if decide (wg s = 0%nat) then Stuck
  else match c with
  | TickerC order => writeOffsetsToDisk order s
  | InRecv order =>
      match buf (in_ s) with
      | p :: rest =>
          let s := with_in (Chan rest (cap (in_ s)) (closed (in_ s))) s in
          mret (with_offsets (merge p (offsets s)) s)
      | [] =>
          if closed (in_ s) then
            let s := Log Verbose FlushingToDisk s in
            s ← writeOffsetsToDisk order s;
            mret (with_wg (pred (wg s)) s)
          else Stuck
      end
  end.

(** The loop goroutine along a schedule, until it returns. *)
Fixpoint loop_until_done (sched : list selected) (s : localOffsetStore)
  : outcome localOffsetStore :=
  if decide (wg s = 0%nat) then mret s
  else match sched with
       | [] => Stuck
       | c :: sched => s ← loop_iteration c s; loop_until_done sched s
       end.

(** [Store]; its result is always the nil error. *)
Definition Store (topic : string) (partition offset : Z)
                 (s : localOffsetStore) : outcome localOffsetStore :=
  if decide (offset = sarama.OffsetOldest ∨ offset = sarama.OffsetNewest)
  then mret s
  else c ← chan_send (Progress topic partition offset) (in_ s);
       mret (with_in c s).

(** [Query]: the store after the call, the map and the error. A nil map is
    [None]. *)
Definition Query (topic : string) (s : localOffsetStore)
  : outcome (localOffsetStore * option (gmap Z Z) * option (error Cause)) :=
  let offsets0 : gmap Z Z := ∅ in
  match db s with
  | None => Panicked
  | Some d =>
      let '(d, r) := Diskv_Read topic d in
      let s := with_db (Some d) s in
      match r with
      | ReadNotExist =>
          mret (with_offsets (<[topic := offsets0]> (offsets s)) s,
                Some offsets0, None)
      | ReadFailed err => mret (s, None, Some (Raw err))
      | ReadOk val =>
          match gob_decode val with
          | inl err => mret (s, None, Some (Wrapf err (FailedToDeserialise topic)))
          | inr decoded =>
              mret (with_offsets (<[topic := decoded]> (offsets s)) s,
                    Some decoded, None)
          end
      end
  end.

(** [close] on a possibly nil receiver. [sched] is what the loop goroutine
    does while [s.wg.Wait()] waits. *)
Definition close (sched : list selected) (sp : option localOffsetStore)
  : outcome (option localOffsetStore) :=
  match sp with
  | None => mret None
  | Some s =>
      match db s with
      | None => mret (Some s)
      | Some _ =>
          let s := Log SuperVerbose ClosingStore s in
          c ← chan_close (in_ s);
          s ← loop_until_done sched (with_in c s);
          c ← chan_close (writeErrors s);
          mret (Some (Log SuperVerbose StoreClosed (with_writeErrors c s)))
      end
  end.

(** Calls on a store, as a client and the scheduler issue them. *)
Inductive call : Type :=
| CallStart
| CallStore (topic : string) (partition offset : Z)
| CallQuery (topic : string)
| LoopTurn (c : selected)
| CallClose (sched : list selected).

Definition exec (c : call) (s : localOffsetStore) : outcome localOffsetStore :=
  match c with
  | CallStart => mret (start s)
  | CallStore t p o => Store t p o s
  | CallQuery t => r ← Query t s; mret r.1.1
  | LoopTurn c => loop_iteration c s
  | CallClose sched =>
      r ← close sched (Some s); mret (default s r)
  end.

Fixpoint run (calls : list call) (s : localOffsetStore)
  : outcome localOffsetStore :=
  match calls with
  | [] => mret s
  | c :: calls => s ← exec c s; run calls s
  end.

End store.

Arguments Diskv : clear implicits.
Arguments read_result : clear implicits.
Arguments localOffsetStore : clear implicits.

End kafka.

(** ** Package main: the event loop, [process] and [getCheckpoint] *)

Module main.

(** The collaborators of [process]: the proto loader, [proto.Unmarshal], the
    marshaller and [regexp.Regexp.Match]. [proto_Unmarshal] gives the message
    it has filled in. *)
Class Codec (Bytes Cause Msg Time Regexp : Type) : Type := {
  loader_Get : string → Cause + Msg;
  proto_Unmarshal : Bytes → Msg → Cause + Msg;
  marshaller_Marshal : Msg → Time → Cause + Bytes;
  regexp_Match : Regexp → Bytes → bool
}.

(** [core.Int64Flag] and [core.TimeFlag], as [getCheckpoint] reads them. *)
Record Flag (A : Type) : Type := MkFlag {
  IsSet : bool;
  Get : A
}.
Arguments MkFlag {A} IsSet Get.
Arguments IsSet {A} f.
Arguments Get {A} f.

Section checkpoint.
Context {Time : Type}.

(** Modelled from the spec: [kafka.Checkpoint] with its constructor and two
    setters is not among the sources; the record has the three attributes
    of the spec's data model. *)
Record Checkpoint : Type := MkCheckpoint {
  rewindToOldest : bool;
  explicitOffset : option Z;
  explicitTimestamp : option Time
}.

(** Modelled from the spec: [kafka.NewCheckpoint] carries the rewind
    request and neither an offset nor a timestamp. *)
Definition NewCheckpoint (rewind : bool) : Checkpoint :=
  MkCheckpoint rewind None None.

(** Modelled from the spec: [Checkpoint.SetOffset] records the explicit
    offset; [normalise] is the broker's clamp, which the spec leaves
    open. *)
Definition SetOffset (normalise : Z → Z) (offset : Z) (cp : Checkpoint)
  : Checkpoint :=
  MkCheckpoint (rewindToOldest cp) (Some (normalise offset))
               (explicitTimestamp cp).

(** Modelled from the spec: [Checkpoint.SetTimeOffset] records the
    timestamp. *)
Definition SetTimeOffset (at_ : Time) (cp : Checkpoint) : Checkpoint :=
  MkCheckpoint (rewindToOldest cp) (explicitOffset cp) (Some at_).

(** [getCheckpoint]: a [switch] without fallthrough, the first case that
    holds is the only one taken. *)
Definition getCheckpoint (normalise : Z → Z) (rewind : bool)
                         (timeCheckpoint : Flag Time)
                         (offsetCheckpoint : Flag Z) : Checkpoint :=
  let cp := NewCheckpoint rewind in
  if IsSet offsetCheckpoint then SetOffset normalise (Get offsetCheckpoint) cp
  else if IsSet timeCheckpoint then SetTimeOffset (Get timeCheckpoint) cp
  else cp.
End checkpoint.
Arguments Checkpoint : clear implicits.

Section pipeline.
Context {Bytes Cause Msg Time Regexp : Type}
        `{!Codec Bytes Cause Msg Time Regexp}.

(** [kafka.Event], the fields the loop reads. *)
Record Event : Type := MkEvent {
  Topic : string;
  Partition : Z;
  Offset : Z;
  Timestamp : Time;
  Value : Bytes
}.

(** [process]: the output ([None] is the nil slice) and the error. *)
Definition process (messageType : string) (event : Event)
                   (search : option Regexp) (reverse : bool)
  : option Bytes * option Cause :=
  match loader_Get messageType with
  | inl err => (None, Some err)
  | inr msg =>
      match proto_Unmarshal (Value event) msg with
      | inl err => (None, Some err)
      | inr msg =>
          match marshaller_Marshal msg (Timestamp event) with
          | inl err => (None, Some err)
          | inr output =>
              if match search with
                 | Some re => bool_decide (regexp_Match re output = reverse)
                 | None => false
                 end
              then (None, None)
              else (Some output, None)
          end
      end
  end.

(** What the loop does to the world. *)
Inductive effect : Type :=
| StopConsumer
| WriteEvent (topic : string) (output : option Bytes)
| StoreOffset (event : Event)
| LogFailure (offset partition : Z) (topic : string) (err : Cause).

(** What [select] delivers in one iteration. *)
Inductive selected : Type :=
| CtxDone
| EventsRecv (event : Event)
| EventsClosed.

Inductive status : Type :=
| Looping (cancelled : bool)
| Returned.

Section loop.
Variable tm : gmap string string.
Variable searchExpression : option Regexp.
Variable reversed : bool.

(** One iteration of the [for { select { ... } }] of the goroutine in
    [main]. [tm[event.Topic]] is the empty string for a topic that is
    not in the map. *)
Definition iteration (sel : selected) (cancelled : bool)
  : list effect * status :=
  match sel with
  | CtxDone =>
      if negb cancelled then ([StopConsumer], Looping true)
      else ([], Looping cancelled)
  | EventsClosed => ([], Returned)
  | EventsRecv event =>
      if cancelled then ([], Looping cancelled)
      else
        match process (default "" (tm !! Topic event)) event
                      searchExpression reversed with
        | (output, None) =>
            ([WriteEvent (Topic event) output; StoreOffset event],
             Looping cancelled)
        | (_, Some err) =>
            ([LogFailure (Offset event) (Partition event) (Topic event) err],
             Looping cancelled)
        end
  end.

(** The loop over what [select] delivers, one after the other: the
    effects in order and where the loop stands. Once the loop has
    returned nothing more is received. *)
Fixpoint loop (sels : list selected) (cancelled : bool)
  : list effect * status :=
  match sels with
  | [] => ([], Looping cancelled)
  | sel :: sels =>
      match iteration sel cancelled with
      | (eff, Returned) => (eff, Returned)
      | (eff, Looping cancelled) =>
          let '(effs, st) := loop sels cancelled in (eff ++ effs, st)
      end
  end.
End loop.

Definition is_stop (e : effect) : bool :=
  match e with
  | StopConsumer => true
  | _ => false
  end.
End pipeline.
Arguments Event : clear implicits.
Arguments effect : clear implicits.
Arguments selected : clear implicits.

(** [getTopics]: [order] is the order in which [range topicMap] yields the
    topics. Every topic is given the one checkpoint. *)
Definition getTopics {Time : Type} (order : list string)
                     (topicMap : gmap string string) (cp : Checkpoint Time)
  : gmap string (Checkpoint Time) :=
  foldl (λ topics kv, <[kv.1 := cp]> topics) ∅
        (kafka.range_in_order order topicMap).

(** [internal.IsEmpty] and [filepath.Join], which the writers are set up
    with. *)
Class Paths : Type := {
  IsEmpty : string → bool;
  Join : string → string → string
}.

Inductive err_msg : Type :=
| FailedToCreate (file : string)
| FailedToCreateOutputDir
| ClientKeyMissing
| FailedToLoadKeyPair
| FailedToReadCA
| FailedToAppendCA.

(** The errors made in package main: [errors.New] and [errors.Wrap] or
    [errors.Wrapf] around a library error. *)
Inductive error (Cause : Type) : Type :=
| New (msg : err_msg)
| Wrap (e : Cause) (msg : err_msg).
Arguments New {Cause} msg.
Arguments Wrap {Cause} e msg.

(** An [io.Writer] as package main obtains it. *)
Inductive Writer : Type :=
| Discard
| Stdout
| OsFile (name : string).

Inductive os_op : Type :=
| MkdirAll (path : string)
| OpenFile (name : string)
| Sync (name : string)
| Close (name : string).

Section writers.
Context {Cause : Type} `{!Paths}.

(** The operating system as the writers see it: the calls made so far with
    their errors, what was printed for them, and a script of faults, one
    entry taken by each call, [Some e] making the call fail with [e]. *)
Record OS : Type := MkOS {
  calls : list (os_op * option Cause);
  printed : list (os_op * Cause);
  faults : list (option Cause)
}.

Definition os_call (op : os_op) (os : OS) : OS * option Cause :=
  let err := match faults os with
             | Some e :: _ => Some e
             | _ => None
             end in
  (MkOS (calls os ++ [(op, err)]) (printed os) (tail (faults os)), err).

(** [fmt.Printf] of a failure to sync or to close. *)
Definition print_failure (op : os_op) (e : Cause) (os : OS) : OS :=
  MkOS (calls os) (printed os ++ [(op, e)]) (faults os).

(** [getLogWriter]: the writer ([None] is nil), whether it is to be closed,
    and the error. *)
Definition getLogWriter (f : Flag string) (os : OS)
  : OS * (option Writer * bool * option (error Cause)) :=
  let file := Get f in
  if IsEmpty file then
    if IsSet f then (os, (Some Discard, false, None))
    else (os, (Some Stdout, false, None))
  else
    let '(os, err) := os_call (OpenFile file) os in
    match err with
    | Some err => (os, (None, false, Some (Wrap err (FailedToCreate file))))
    | None => (os, (Some (OsFile file), true, None))
    end.

(** The second loop of [getOutputWriters], over the topics as [range]
    yields them. *)
Fixpoint open_writers (root : string) (topics : list string)
                      (result : gmap string Writer) (os : OS)
  : OS * (option (gmap string Writer) * bool * option (error Cause)) :=
  match topics with
  | [] => (os, (Some result, true, None))
  | topic :: topics =>
      let file := Join root topic in
      let '(os, err) := os_call (OpenFile file) os in
      match err with
      | Some err => (os, (None, false, Some (Wrap err (FailedToCreate file))))
      | None => open_writers root topics (<[topic := OsFile file]> result) os
      end
  end.

(** [getOutputWriters]: [order] is the order in which [range topics] yields
    the topics. *)
Definition getOutputWriters {V : Type} (dir : Flag string)
                            (topics : gmap string V) (order : list string)
                            (os : OS)
  : OS * (option (gmap string Writer) * bool * option (error Cause)) :=
  let root := Get dir in
  let keys := (kafka.range_in_order order topics).*1 in
  if IsEmpty root then
    let discard := IsSet dir in
    (os, (Some (foldl (λ result topic,
                         <[topic := if discard then Discard else Stdout]> result)
                      ∅ keys),
          false, None))
  else
    let '(os, err) := os_call (MkdirAll root) os in
    match err with
    | Some err => (os, (None, false, Some (Wrap err FailedToCreateOutputDir)))
    | None => open_writers root keys ∅ os
    end.

(** [closeFile] *)
Definition closeFile (file : string) (os : OS) : OS :=
  let '(os, err) := os_call (Sync file) os in
  let os := match err with
            | Some e => print_failure (Sync file) e os
            | None => os
            end in
  let '(os, err) := os_call (Close file) os in
  match err with
  | Some e => print_failure (Close file) e os
  | None => os
  end.

(** The type assertion of a writer to [*os.File], which panics on another
    writer. *)
Definition as_file (w : Writer) : outcome string :=
  match w with
  | OsFile name => Ret name
  | _ => Panicked
  end.

(** The closing of the log file at the end of [main], under
    [if closableLog], with its type assertion. *)
Definition close_log (logFile : Writer) (closableLog : bool) (os : OS)
  : outcome OS :=
  if closableLog then file ← as_file logFile; mret (closeFile file os)
  else mret os.

Fixpoint close_each (ws : list Writer) (os : OS) : outcome OS :=
  match ws with
  | [] => mret os
  | w :: ws => file ← as_file w; close_each ws (closeFile file os)
  end.

(** The closing of the writers at the end of [main], under [if closable],
    with the type assertion on each; [order] is the order of
    [range writers]. *)
Definition close_writers (writers : gmap string Writer) (closable : bool)
                         (order : list string) (os : OS) : outcome OS :=
  if closable
  then close_each (kafka.range_in_order order writers).*2 os
  else mret os.
End writers.
Arguments OS : clear implicits.

Section tls.
Context {Cause Cert Pool Bytes : Type} `{!Paths}.

(** The fields of [tls.Config] that [configureTLS] sets. *)
Record Config : Type := MkConfig {
  Certificates : list Cert;
  InsecureSkipVerify : bool;
  RootCAs : option Pool
}.

(** [tls.LoadX509KeyPair], [ioutil.ReadFile] and, on a new pool,
    [AppendCertsFromPEM] ([None] when it reports that nothing was
    appended). *)
Variable LoadX509KeyPair : string → string → Cause + Cert.
Variable ReadFile : string → Cause + Bytes.
Variable AppendCertsFromPEM : Bytes → option Pool.

(** [configureTLS], on the values of the three flags. *)
Definition configureTLS (clientCert clientKey caCert : string)
  : option Config * option (error Cause) :=
  let certs :=
    if negb (IsEmpty clientCert) then
      if IsEmpty clientKey then inl (New ClientKeyMissing)
      else match LoadX509KeyPair clientCert clientKey with
           | inl err => inl (Wrap err FailedToLoadKeyPair)
           | inr certificate => inr [certificate]
           end
    else inr [] in
  match certs with
  | inl err => (None, Some err)
  | inr certs =>
      if IsEmpty caCert then (Some (MkConfig certs true None), None)
      else match ReadFile caCert with
           | inl err => (None, Some (Wrap err FailedToReadCA))
           | inr ca =>
               match AppendCertsFromPEM ca with
               | None => (None, Some (New FailedToAppendCA))
               | Some certPool => (Some (MkConfig certs false (Some certPool)), None)
               end
           end
  end.
End tls.
Arguments Config : clear implicits.

End main.

(** ** Vocabulary of the statements *)

Section store_vocabulary.
Context {Bytes Cause : Type} `{!kafka.Gob Bytes Cause}.

Definition sentinel (o : Z) : Prop :=
  o = sarama.OffsetOldest ∨ o = sarama.OffsetNewest.

#[global] Instance sentinel_dec o : Decision (sentinel o).
Proof. unfold sentinel. apply _. Defined.

Definition sentinel_free (m : gmap Z Z) : Prop :=
  ∀ p o, m !! p = Some o → ¬ sentinel o.

(** The bytes of a record that holds no sentinel. *)
Definition clean_record (b : Bytes) : Prop :=
  ∃ m, b = (kafka.gob_encode m).1 ∧ sentinel_free m.

(** The records on the disk of a store. *)
Definition store_files (s : kafka.localOffsetStore Bytes Cause)
  : gmap string Bytes :=
  match kafka.db s with
  | Some d => kafka.files d
  | None => ∅
  end.

(** A call that is a [Store] on the one partition, or a turn of the
    loop. *)
Definition on_partition (t : string) (pt : Z) (c : kafka.call) : Prop :=
  match c with
  | kafka.CallStore t' pt' _ => t' = t ∧ pt' = pt
  | kafka.LoopTurn _ => True
  | _ => False
  end.

(** The offsets handed to [Store], in call order. *)
Definition stored (calls : list kafka.call) : list Z :=
  omap (λ c, match c with
             | kafka.CallStore _ _ o => Some o
             | _ => None
             end) calls.

(** The last offset of a list that is not a sentinel. *)
Definition last_real (os : list Z) : option Z :=
  last (filter (λ o, ¬ sentinel o) os).

Implicit Types (s : kafka.localOffsetStore Bytes Cause).

(** The read faults that are still to come. *)
Definition read_script s : option (list (option Cause)) :=
  kafka.rfail <$> kafka.db s.

(** Every record of [s'] is a record of [s] or a record without
    sentinel. *)
Definition files_ok s s' : Prop :=
  ∀ t b, store_files s' !! t = Some b →
         store_files s !! t = Some b ∨ clean_record b.

(** What one flush leaves alone, and what it may do to the disk and to the
    error channel. *)
Record flush_frame s s' : Prop := {
  frame_offsets : kafka.offsets s' = kafka.offsets s;
  frame_in : kafka.in_ s' = kafka.in_ s;
  frame_wg : kafka.wg s' = kafka.wg s;
  frame_reads : read_script s' = read_script s;
  frame_nil : kafka.db s = None → kafka.db s' = None;
  frame_files : files_ok s s';
  frame_errors : ∃ errs, buf (kafka.writeErrors s')
                         = buf (kafka.writeErrors s) ++ errs
}.

(** The offset the in-memory map holds for partition [pt] of topic [t],
    if any. *)
Definition current (t : string) (pt : Z) s : list Z :=
  match kafka.offsets s !! t ≫= (λ m, m !! pt) with
  | Some v => [v]
  | None => []
  end.

(** That offset followed by the offsets still in the queue. *)
Definition pending (t : string) (pt : Z) s : list Z :=
  current t pt s ++ (kafka.offset <$> buf (kafka.in_ s)).

(** A store that has seen nothing but [Store] calls on partition [pt] of
    topic [t]. *)
Record single_partition (t : string) (pt : Z) s : Prop := {
  sp_open : closed (kafka.in_ s) = false;
  sp_queue : Forall (λ p, kafka.topic p = t ∧ kafka.partition p = pt ∧
                          ¬ sentinel (kafka.offset p)) (buf (kafka.in_ s));
  sp_offsets : kafka.offsets s = ∅ ∨
               ∃ v, ¬ sentinel v ∧ kafka.offsets s = {[t := {[pt := v]}]}
}.
End store_vocabulary.

Section pipeline_vocabulary.
Context {Bytes Cause Msg Time Regexp : Type}
        `{!main.Codec Bytes Cause Msg Time Regexp}.

(** The three decoding steps of [process] succeed and give [output]. *)
Definition decodes_to (messageType : string) (event : main.Event Bytes Time)
                      (output : Bytes) : Prop :=
  ∃ msg msg',
    main.loader_Get messageType = inr msg ∧
    main.proto_Unmarshal (main.Value event) msg = inr msg' ∧
    main.marshaller_Marshal msg' (main.Timestamp event) = inr output.

(** One of the three decoding steps of [process] fails with [err]. *)
Definition decode_fails (messageType : string) (event : main.Event Bytes Time)
                        (err : Cause) : Prop :=
  main.loader_Get messageType = inl err ∨
  (∃ msg, main.loader_Get messageType = inr msg ∧
          main.proto_Unmarshal (main.Value event) msg = inl err) ∨
  (∃ msg msg', main.loader_Get messageType = inr msg ∧
               main.proto_Unmarshal (main.Value event) msg = inr msg' ∧
               main.marshaller_Marshal msg' (main.Timestamp event) = inl err).

Definition is_closed (sel : main.selected Bytes Time) : bool :=
  match sel with
  | main.EventsClosed => true
  | _ => false
  end.
End pipeline_vocabulary.

(** ** Further vocabulary of the offset store *)

Section store_observations.
Context {Bytes Cause : Type} `{!kafka.Gob Bytes Cause}.

(** The offset an in-memory map holds for a partition of a topic. *)
Definition offset_of (m : gmap string (gmap Z Z)) (t : string) (pt : Z)
  : option Z :=
  m !! t ≫= (λ offs, offs !! pt).

(** The offsets a queue holds for a partition of a topic, oldest first. *)
Definition updates_for (t : string) (pt : Z) (ps : list kafka.progress)
  : list Z :=
  kafka.offset <$> filter (λ p, kafka.topic p = t ∧ kafka.partition p = pt) ps.

(** One [Store] call per update. *)
Definition store_calls (ps : list kafka.progress) : list kafka.call :=
  (λ p, kafka.CallStore (kafka.topic p) (kafka.partition p) (kafka.offset p))
    <$> ps.

(** Turns of the loop in which [select] takes the case of the queue. *)
Definition recv_turns (orders : list (list string)) : list kafka.call :=
  (λ order, kafka.LoopTurn (kafka.InRecv order)) <$> orders.

(** The record a flush writes for a mapping of a topic. *)
Definition record_of (m : gmap Z Z) : Bytes :=
  (kafka.gob_encode (kafka.toWrite_of m)).1.

(** A mapping with something to write that the encoder accepts. *)
Definition writable (m : gmap Z Z) : Prop :=
  kafka.toWrite_of m ≠ ∅ ∧ (kafka.gob_encode (kafka.toWrite_of m)).2 = None.

#[global] Instance writable_dec `{!EqDecision Cause} (m : gmap Z Z)
  : Decision (writable m).
Proof. unfold writable. apply _. Defined.

(** The next [n] writes of a disk are not scripted to fail. *)
Definition no_write_fault (n : nat) (d : kafka.Diskv Bytes Cause) : Prop :=
  Forall (λ f, f = None) (take n (kafka.wfail d)).

(** The serialisation errors a flush hands to the listener for the entries
    it ranges over, in order: one for each entry whose encoding reports an
    error. *)
Definition serialise_errors (entries : list (string * gmap Z Z))
  : list (kafka.error Cause) :=
  omap (λ e, (λ err, kafka.Wrapf err (kafka.FailedToSerialise e.1))
               <$> (kafka.gob_encode (kafka.toWrite_of e.2)).2) entries.

(** A store whose flushes can go through: it has a disk, and its error
    channel is open and handed over to a listener. *)
Definition flush_ready (s : kafka.localOffsetStore Bytes Cause) : Prop :=
  is_Some (kafka.db s) ∧ closed (kafka.writeErrors s) = false ∧
  cap (kafka.writeErrors s) = 0%nat.

(** A store that holds no sentinel: not in the in-memory map, not in the
    queue, and every record on its disk is the record of a mapping without
    sentinel. *)
Definition holds_no_sentinel (s : kafka.localOffsetStore Bytes Cause) : Prop :=
  map_Forall (λ _ m, sentinel_free m) (kafka.offsets s) ∧
  Forall (λ p, ¬ sentinel (kafka.offset p)) (buf (kafka.in_ s)) ∧
  map_Forall (λ _ b, clean_record b) (store_files s).

(** The in-memory map once the queued updates are applied, oldest first. *)
Definition merged (s : kafka.localOffsetStore Bytes Cause)
  : gmap string (gmap Z Z) :=
  foldl (λ m p, kafka.merge p m) (kafka.offsets s) (buf (kafka.in_ s)).
End store_observations.

(** ** Further vocabulary of package main *)

Section pipeline_observations.
Context {Bytes Cause Msg Time Regexp : Type}
        `{!main.Codec Bytes Cause Msg Time Regexp}.

(** The events whose offsets a run committed, in order. *)
Definition committed (effs : list (main.effect Bytes Cause Time))
  : list (main.Event Bytes Time) :=
  omap (λ e, match e with
             | main.StoreOffset event => Some event
             | _ => None
             end) effs.

(** The topics a run wrote to, in order. *)
Definition written (effs : list (main.effect Bytes Cause Time)) : list string :=
  omap (λ e, match e with
             | main.WriteEvent topic _ => Some topic
             | _ => None
             end) effs.

(** The events [select] delivers before it first delivers the
    cancellation signal or the closing of the channel. *)
Fixpoint live_events (sels : list (main.selected Bytes Time))
  : list (main.Event Bytes Time) :=
  match sels with
  | main.EventsRecv event :: sels => event :: live_events sels
  | _ => []
  end.

(** [process] returns no error for the event. *)
Definition processes (tm : gmap string string) (search : option Regexp)
                     (reversed : bool) (event : main.Event Bytes Time) : bool :=
  match (main.process (default "" (tm !! main.Topic event)) event
                      search reversed).2 with
  | None => true
  | Some _ => false
  end.

Definition is_done (sel : main.selected Bytes Time) : bool :=
  match sel with
  | main.CtxDone => true
  | _ => false
  end.
End pipeline_observations.

Section writer_observations.
Context `{!main.Paths}.

(** The writer [getOutputWriters] gives a topic. *)
Definition writer_for (dir : main.Flag string) (topic : string) : main.Writer :=
  if main.IsEmpty (main.Get dir)
  then if main.IsSet dir then main.Discard else main.Stdout
  else main.OsFile (main.Join (main.Get dir) topic).
End writer_observations.

(** ** Concrete collaborators for the closed runs *)

Module sample.

(** A codec in the place of gob: the bytes of a map are its entries, and
    entries that name a partition twice do not decode. *)
#[global] Instance entries_gob : kafka.Gob (list (Z * Z)) string := {|
  kafka.gob_encode m := (map_to_list m, None);
  kafka.gob_decode b :=
    if decide (NoDup b.*1) then inr (list_to_map b)
    else inl "duplicate map key"%string
|}.

Definition empty_disk : kafka.Diskv (list (Z * Z)) string :=
  kafka.MkDiskv ∅ [] [].

(** A disk whose next read fails. *)
Definition failing_disk : kafka.Diskv (list (Z * Z)) string :=
  kafka.MkDiskv ∅ [] [Some "input/output error"%string].

(** A disk with a record for "orders" that does not decode. *)
Definition corrupt_disk : kafka.Diskv (list (Z * Z)) string :=
  kafka.MkDiskv {["orders" := [(0, 1); (0, 2)]]} [] [].

(** A store that was created on the empty disk and started. *)
Definition fresh : kafka.localOffsetStore (list (Z * Z)) string :=
  kafka.start (kafka.newLocalOffsetStore [] empty_disk).

(** [Store] calls on partition 0 of "orders", a sentinel among them, with
    the turns of the loop that consume them and a tick in between. *)
Definition orders_calls : list kafka.call :=
  [kafka.CallStore "orders" 0 7;
   kafka.LoopTurn (kafka.InRecv []);
   kafka.CallStore "orders" 0 sarama.OffsetNewest;
   kafka.CallStore "orders" 0 10;
   kafka.LoopTurn (kafka.TickerC ["orders"%string]);
   kafka.LoopTurn (kafka.InRecv [])].

(** "payments" is queried at start-up and has no record; one update for
    "orders" is stored and consumed. *)
Definition startup_calls : list kafka.call :=
  [kafka.CallQuery "payments";
   kafka.CallStore "orders" 0 5;
   kafka.LoopTurn (kafka.InRecv [])].

Fixpoint contains (re s : string) : bool :=
  String.prefix re s ||
  match s with
  | EmptyString => false
  | String _ s' => contains re s'
  end.

(** A codec in the place of the proto loader and marshaller: messages are
    text, the empty message type is unknown, an empty value does not
    unmarshal, and a pattern matches the outputs it occurs in. *)
#[global] Instance text_codec : main.Codec string string string Z string := {|
  main.loader_Get mt :=
    if decide (mt = "") then inl "unknown message type"%string else inr ""%string;
  main.proto_Unmarshal v _ :=
    if decide (v = "") then inl "unexpected EOF"%string else inr v;
  main.marshaller_Marshal msg _ := inr msg;
  main.regexp_Match re out := contains re out
|}.

Definition status_ok : main.Event string Z :=
  main.MkEvent "orders" 0 7 0 "status=ok".

Definition truncated : main.Event string Z :=
  main.MkEvent "orders" 1 8 0 "".

Definition types : gmap string string := {["orders" := "Order"%string]}.

(** "payments" is queried at start-up and has no record; then [Store] is
    called on partition 0 of "orders" only, a sentinel among the offsets,
    and the loop consumes the two updates. *)
Definition partition_calls : list kafka.call :=
  [kafka.CallQuery "payments";
   kafka.CallStore "orders" 0 5;
   kafka.CallStore "orders" 0 sarama.OffsetNewest;
   kafka.CallStore "orders" 0 6;
   kafka.LoopTurn (kafka.InRecv []);
   kafka.LoopTurn (kafka.InRecv [])].

(** Three updates waiting in the queue of a started store. *)
Definition queue : list kafka.progress :=
  [kafka.Progress "orders" 0 7; kafka.Progress "orders" 1 3;
   kafka.Progress "orders" 0 9].

Definition queued : kafka.localOffsetStore (list (Z * Z)) string :=
  kafka.with_in (Chan queue 100 false) fresh.

(** The same queue on a store that was created and never started. *)
Definition idle : kafka.localOffsetStore (list (Z * Z)) string :=
  kafka.with_in (Chan queue 100 false)
                (kafka.newLocalOffsetStore [] empty_disk).

(** The scenario of two topics: "orders" with partitions 0 and 1 and
    "payments" with partition 0, stored and consumed. *)
Definition scenario_calls : list kafka.call :=
  [kafka.CallStore "orders" 0 10; kafka.CallStore "orders" 1 20;
   kafka.CallStore "payments" 0 5;
   kafka.LoopTurn (kafka.InRecv []); kafka.LoopTurn (kafka.InRecv []);
   kafka.LoopTurn (kafka.InRecv [])].

Definition scenario_offsets : gmap string (gmap Z Z) :=
  {["orders" := {[0 := 10; 1 := 20]}; "payments" := {[0 := 5]}]}.

Definition scenario_on (d : kafka.Diskv (list (Z * Z)) string)
  : kafka.localOffsetStore (list (Z * Z)) string :=
  kafka.with_offsets scenario_offsets
                     (kafka.start (kafka.newLocalOffsetStore [] d)).

(** A disk whose second write fails. *)
Definition full_disk : kafka.Diskv (list (Z * Z)) string :=
  kafka.MkDiskv ∅ [None; Some "no space left on device"%string] [].

(** An encoder that gives up after the first entry of a mapping with more
    than one, leaving that entry in the buffer. *)
Definition short_gob : kafka.Gob (list (Z * Z)) string := {|
  kafka.gob_encode m :=
    match map_to_list m with
    | e :: _ :: _ => ([e], Some "short write"%string)
    | l => (l, None)
    end;
  kafka.gob_decode b :=
    if decide (NoDup b.*1) then inr (list_to_map b)
    else inl "duplicate map key"%string
|}.

Definition orders_only : kafka.localOffsetStore (list (Z * Z)) string :=
  kafka.with_offsets {["orders" := {[0 := 10; 1 := 20]}]} fresh.

(** [internal.IsEmpty] on text without blanks, and [filepath.Join] with a
    slash. *)
#[global] Instance plain_paths : main.Paths := {|
  main.IsEmpty s := bool_decide (s = ""%string);
  main.Join root name := (root +:+ "/" +:+ name)%string
|}.

Definition quiet_os : main.OS string := main.MkOS [] [] [].

(** Key pairs and CA files by name: the key "stale.key" does not load, the
    file "empty.pem" holds no certificate. *)
Definition load_pair (cert key : string) : string + (string * string) :=
  if decide (key = "stale.key"%string) then inl "tls: private key does not match"%string
  else inr (cert, key).

Definition read_file (name : string) : string + string := inr name.

Definition append_pem (ca : string) : option (list string) :=
  if decide (ca = "empty.pem"%string) then None else Some [ca].

End sample.

(** * Properties of package main *)

Section pipeline_properties.
Context {Bytes Cause Msg Time Regexp : Type}
        `{!main.Codec Bytes Cause Msg Time Regexp}.
Variable tm : gmap string string.
Variable searchExpression : option Regexp.
Variable reversed : bool.

Abbreviation loop := (main.loop tm searchExpression reversed).
Abbreviation iteration := (main.iteration tm searchExpression reversed).

(** A cancelled loop does nothing but receive: no effect at all, and it
    returns exactly when the channel is reported closed. *)
Lemma loop_cancelled (sels : list (main.selected Bytes Time)) :
  loop sels true
  = ([], if existsb is_closed sels then main.Returned else main.Looping true).
Proof.
  induction sels as [|sel sels IH]; [done|].
  destruct sel as [|event|]; simpl; [| |done]; by rewrite IH.
Qed.

(** The loop over two stretches of input is the loop over the first, and
    then, unless it returned, over the second. *)
Lemma loop_app (before after : list (main.selected Bytes Time)) (c : bool) :
  loop (before ++ after) c
  = match loop before c with
    | (effs, main.Returned) => (effs, main.Returned)
    | (effs, main.Looping c') =>
        let '(effs', st) := loop after c' in (effs ++ effs', st)
    end.
Proof.
  revert c. induction before as [|sel before IH]; intros c; simpl.
  { by destruct (loop after c). }
  destruct (iteration sel c) as [eff [c'|]]; [|done].
  rewrite IH. destruct (loop before c') as [effs [c''|]]; [|done].
  destruct (loop after c'') as [effs' st]. by rewrite app_assoc.
Qed.

(** The stop actions of a run, counted with those a cancelled loop skips. *)
Lemma loop_stops (sels : list (main.selected Bytes Time)) (c : bool) :
  (length (filter main.is_stop (loop sels c).1) ≤ if c then 0 else 1)%nat.
Proof.
  revert c. induction sels as [|sel sels IH]; intros c.
  { destruct c; simpl; lia. }
  destruct c; [rewrite loop_cancelled; simpl; lia|].
  destruct sel as [|event|]; simpl.
  - rewrite loop_cancelled. simpl. lia.
  - specialize (IH false).
    destruct (main.process _ event _ _) as [output [err|]];
      destruct (loop sels false) as [effs st]; simpl in *;
      by rewrite !filter_cons_False by (simpl; tauto).
  - simpl. lia.
Qed.

(** C5. Once the loop has observed the cancellation signal it writes no
    output and commits no offset again: whatever [select] delivers
    afterwards adds no effect, the loop goes on receiving and returns
    exactly when the event channel is reported closed, and over a whole
    run the consumer is stopped at most once, however often the signal is
    delivered. *)
Theorem cancelled_loop_only_drains
    (before after : list (main.selected Bytes Time)) (c : bool) :
  loop (before ++ main.CtxDone :: after) c
  = match loop before c with
    | (effs, main.Returned) => (effs, main.Returned)
    | (effs, main.Looping c') =>
        (effs ++ (if c' then [] else [main.StopConsumer]),
         if existsb is_closed after then main.Returned else main.Looping true)
    end
  ∧ loop after true
    = ([], if existsb is_closed after then main.Returned else main.Looping true)
  ∧ (length (filter main.is_stop
               (loop (before ++ main.CtxDone :: after) c).1) ≤ 1)%nat.
Proof.
  split_and!.
  - rewrite loop_app. destruct (loop before c) as [effs [c'|]]; [|done].
    destruct c'; simpl; by rewrite loop_cancelled.
  - apply loop_cancelled.
  - pose proof (loop_stops (before ++ main.CtxDone :: after) c).
    destruct c; lia.
Qed.
End pipeline_properties.

Section process_properties.
Context {Bytes Cause Msg Time Regexp : Type}
        `{!main.Codec Bytes Cause Msg Time Regexp}.

(** [process] on an event that decodes: the filter alone decides. *)
Lemma process_decoded messageType (event : main.Event Bytes Time) output
      (search : option Regexp) (reverse : bool) :
  decodes_to messageType event output →
  main.process messageType event search reverse
  = match search with
    | Some re =>
        if bool_decide (main.regexp_Match re output = reverse)
        then (None, None) else (Some output, None)
    | None => (Some output, None)
    end.
Proof.
  intros (msg & msg' & Hget & Hun & Hmar). unfold main.process.
  rewrite Hget, Hun, Hmar. by destruct search.
Qed.

(** [process] on an event that does not decode: the error, whatever the
    filter. *)
Lemma process_failed messageType (event : main.Event Bytes Time) err
      (search : option Regexp) (reverse : bool) :
  decode_fails messageType event err →
  main.process messageType event search reverse = (None, Some err).
Proof.
  unfold main.process.
  intros [Hget|[(msg & Hget & Hun)|(msg & msg' & Hget & Hun & Hmar)]].
  - by rewrite Hget.
  - by rewrite Hget, Hun.
  - by rewrite Hget, Hun, Hmar.
Qed.

(** C6. For an event that decodes to [output]: without a pattern
    [process] returns the output; with a pattern and [reverse = false] it
    returns the output when the pattern matches it and nothing otherwise;
    with [reverse = true] it returns the output when the pattern does not
    match it and nothing otherwise. It never returns an error. *)
Theorem process_filter_reverse messageType (event : main.Event Bytes Time)
    output :
  decodes_to messageType event output →
  (∀ reverse,
     main.process messageType event None reverse = (Some output, None)) ∧
  (∀ re,
     main.process messageType event (Some re) false
     = (if main.regexp_Match re output then Some output else None, None)) ∧
  (∀ re,
     main.process messageType event (Some re) true
     = (if main.regexp_Match re output then None else Some output, None)).
Proof.
  intros Hdec. split_and!; intros; rewrite (process_decoded _ _ output) by done;
    [done| |]; by destruct (main.regexp_Match re output).
Qed.

(** C7. In a loop that is not cancelled, an event that decodes and is
    dropped by the filter is still committed ([StoreOffset] is called,
    after [WriteEvent] with the nil output), and an event that fails to
    decode is not committed: the failure is logged with the event's
    offset, partition and topic and nothing else is done. In both cases
    the loop goes on. *)
Theorem dropped_committed_failed_logged
    (tm : gmap string string) (reversed : bool)
    (event : main.Event Bytes Time) :
  (∀ re output,
     decodes_to (default "" (tm !! main.Topic event)) event output →
     main.regexp_Match re output = reversed →
     main.iteration tm (Some re) reversed (main.EventsRecv event) false
     = ([main.WriteEvent (main.Topic event) None; main.StoreOffset event],
        main.Looping false)) ∧
  (∀ search err,
     decode_fails (default "" (tm !! main.Topic event)) event err →
     main.iteration tm search reversed (main.EventsRecv event) false
     = ([main.LogFailure (main.Offset event) (main.Partition event)
                         (main.Topic event) err],
        main.Looping false)).
Proof.
  split.
  - intros re output Hdec Hmatch. cbn [main.iteration].
    rewrite (process_decoded _ _ output) by done.
    by rewrite bool_decide_eq_true_2.
  - intros search err Hfail. cbn [main.iteration].
    by rewrite (process_failed _ _ err).
Qed.
End process_properties.

Section checkpoint_properties.
Context {Time : Type}.

(** C8. The checkpoint built by [getCheckpoint] never has both an explicit
    offset and an explicit timestamp; the offset flag, when set, decides
    alone (the timestamp flag is then not applied); the timestamp is
    applied only when the offset flag is not set. [getCheckpoint] is a
    total function: every intent has a checkpoint. *)
Theorem getCheckpoint_at_most_one
    (normalise : Z → Z) (rewind : bool)
    (timeCheckpoint : main.Flag Time) (offsetCheckpoint : main.Flag Z) :
  let cp := main.getCheckpoint normalise rewind timeCheckpoint offsetCheckpoint in
  (main.explicitOffset cp = None ∨ main.explicitTimestamp cp = None) ∧
  main.explicitOffset cp
  = (if main.IsSet offsetCheckpoint
     then Some (normalise (main.Get offsetCheckpoint)) else None) ∧
  main.explicitTimestamp cp
  = (if main.IsSet offsetCheckpoint then None
     else if main.IsSet timeCheckpoint
          then Some (main.Get timeCheckpoint) else None) ∧
  main.rewindToOldest cp = rewind.
Proof.
  unfold main.getCheckpoint.
  destruct (main.IsSet offsetCheckpoint), (main.IsSet timeCheckpoint);
    simpl; auto.
Qed.
End checkpoint_properties.

(** The filter example of the spec: body "status=ok", pattern "ok". *)
Lemma process_filter_reverse_witness :
  decodes_to "Order" sample.status_ok "status=ok"%string ∧
  main.process "Order" sample.status_ok (Some "ok"%string) false
  = (Some "status=ok"%string, None) ∧
  main.process "Order" sample.status_ok (Some "ok"%string) true = (None, None) ∧
  main.process "Order" sample.status_ok None true
  = (Some "status=ok"%string, None).
Proof.
  assert (Hdec : decodes_to "Order" sample.status_ok "status=ok"%string).
  { exists ""%string, "status=ok"%string. by vm_compute. }
  destruct (process_filter_reverse "Order" sample.status_ok _ Hdec)
    as (Hnone & Hkeep & Hrev).
  split_and!; [done|apply (Hkeep "ok"%string)|apply (Hrev "ok"%string)|apply Hnone].
Defined.

Lemma dropped_committed_failed_logged_witness :
  main.iteration sample.types (Some "ok"%string) true
                 (main.EventsRecv sample.status_ok) false
  = ([main.WriteEvent "orders" None; main.StoreOffset sample.status_ok],
     main.Looping false) ∧
  main.iteration sample.types None true
                 (main.EventsRecv sample.truncated) false
  = ([main.LogFailure 8 1 "orders" "unexpected EOF"%string], main.Looping false).
Proof.
  split.
  - apply (proj1 (dropped_committed_failed_logged sample.types true
                    sample.status_ok) "ok"%string "status=ok"%string).
    + exists ""%string, "status=ok"%string. by vm_compute.
    + reflexivity.
  - apply (proj2 (dropped_committed_failed_logged sample.types true
                    sample.truncated) None "unexpected EOF"%string).
    right; left. exists ""%string. by vm_compute.
Defined.

(** * Properties of package kafka *)

Lemma bind_Ret {A B : Type} (f : A → outcome B) (m : outcome A) (b : B) :
  m ≫= f = Ret b → ∃ a, m = Ret a ∧ f a = Ret b.
Proof. destruct m as [a| |]; [|done..]. intros Hf. by exists a. Qed.

Section store_properties.
Context {Bytes Cause : Type} `{!kafka.Gob Bytes Cause}.
Implicit Types (s : kafka.localOffsetStore Bytes Cause).
Implicit Types (d : kafka.Diskv Bytes Cause).

Lemma files_ok_refl s : files_ok s s.
Proof. intros t b ?. by left. Qed.

Lemma files_ok_trans s1 s2 s3 : files_ok s1 s2 → files_ok s2 s3 → files_ok s1 s3.
Proof.
  intros H12 H23 t b Hb. destruct (H23 t b Hb) as [Hb'|?]; [|by right].
  by apply H12.
Qed.

Lemma files_ok_same s s' : store_files s' = store_files s → files_ok s s'.
Proof. intros Heq t b Hb. left. by rewrite <- Heq. Qed.

Lemma toWrite_of_lookup (offs : gmap Z Z) p o :
  kafka.toWrite_of offs !! p = Some o ↔ offs !! p = Some o ∧ ¬ sentinel o.
Proof.
  unfold kafka.toWrite_of. rewrite map_lookup_filter_Some. simpl.
  unfold sentinel. tauto.
Qed.

Lemma toWrite_of_sentinel_free (offs : gmap Z Z) :
  sentinel_free (kafka.toWrite_of offs).
Proof. intros p o Hpo. by apply toWrite_of_lookup in Hpo as [_ ?]. Qed.

(** With a codec that decodes what it encoded, a record without sentinel
    decodes to a mapping without sentinel. *)
Lemma clean_record_decodes (b : Bytes) :
  (∀ m, kafka.gob_decode (kafka.gob_encode m).1 = inr m) →
  clean_record b →
  ∃ m, kafka.gob_decode b = inr m ∧ sentinel_free m.
Proof. intros Hgob (m & -> & Hm). by exists m. Qed.

Lemma send_error_Ret e s s' :
  kafka.send_error e s = Ret s' →
  s' = kafka.with_writeErrors
         (Chan (buf (kafka.writeErrors s) ++ [e]) (cap (kafka.writeErrors s))
               false) s.
Proof.
  unfold kafka.send_error, chan_send. intros Hs.
  destruct (closed (kafka.writeErrors s)); [done|].
  destruct (bool_decide _); [|done]. by injection Hs as <-.
Qed.

Lemma db_Write_Ret key val s s' err :
  kafka.db_Write key val s = Ret (s', err) →
  ∃ d, kafka.db s = Some d ∧
       s' = kafka.with_db (Some (kafka.Diskv_Write key val d).1) s ∧
       err = (kafka.Diskv_Write key val d).2.
Proof.
  unfold kafka.db_Write. destruct (kafka.db s) as [d|]; [|done].
  destruct (kafka.Diskv_Write key val d) as [d' err'] eqn:Hw.
  intros Hr. injection Hr as <- <-. exists d. by rewrite Hw.
Qed.

Lemma Diskv_Write_files key val d :
  kafka.files (kafka.Diskv_Write key val d).1
  = match (kafka.Diskv_Write key val d).2 with
    | Some _ => kafka.files d
    | None => <[key := val]> (kafka.files d)
    end.
Proof.
  unfold kafka.Diskv_Write. by destruct (kafka.wfail d) as [|[e|] ?].
Qed.

Lemma Diskv_Write_rfail key val d :
  kafka.rfail (kafka.Diskv_Write key val d).1 = kafka.rfail d.
Proof.
  unfold kafka.Diskv_Write. by destruct (kafka.wfail d) as [|[e|] ?].
Qed.

Lemma flush_frame_refl s : flush_frame s s.
Proof.
  split; try done; [apply files_ok_refl|]. exists []. by rewrite app_nil_r.
Qed.

Lemma flush_frame_trans s1 s2 s3 :
  flush_frame s1 s2 → flush_frame s2 s3 → flush_frame s1 s3.
Proof.
  intros [] []. split; try congruence; eauto using files_ok_trans.
  destruct frame_errors0 as [errs1 H1], frame_errors1 as [errs2 H2].
  exists (errs1 ++ errs2). by rewrite H2, H1, app_assoc.
Qed.

Lemma flush_frame_send e s s' : kafka.send_error e s = Ret s' → flush_frame s s'.
Proof.
  intros ->%send_error_Ret. split; try done; [by apply files_ok_same|].
  by exists [e].
Qed.

Lemma flush_frame_Log l m s : flush_frame s (kafka.Log l m s).
Proof.
  split; try done; [by apply files_ok_same|]. exists []. by rewrite app_nil_r.
Qed.

Lemma flush_frame_write key val s s' err :
  clean_record val →
  kafka.db_Write key val s = Ret (s', err) → flush_frame s s'.
Proof.
  intros Hclean (d & Hd & -> & _)%db_Write_Ret.
  split; try done.
  - unfold read_script. simpl. by rewrite Hd, Diskv_Write_rfail.
  - simpl. congruence.
  - intros t b. unfold store_files. simpl. rewrite Hd, Diskv_Write_files.
    destruct (kafka.Diskv_Write key val d).2; [by left|].
    destruct (decide (key = t)) as [->|Hne].
    + rewrite lookup_insert_eq. intros [= <-]. by right.
    + rewrite lookup_insert_ne by done. by left.
  - exists []. by rewrite app_nil_r.
Qed.

Lemma writeOffsets_range_frame entries s s' :
  kafka.writeOffsets_range entries s = Ret s' → flush_frame s s'.
Proof.
  revert s. induction entries as [|[topic offs] rest IH]; intros s Hw.
  { injection Hw as <-. apply flush_frame_refl. }
  cbn [kafka.writeOffsets_range] in Hw.
  destruct (decide _) as [_|_]; [injection Hw as <-; apply flush_frame_refl|].
  destruct (kafka.gob_encode (kafka.toWrite_of offs)) as [buff err] eqn:Henc.
  apply bind_Ret in Hw as (s1 & Hs1 & Hw).
  apply bind_Ret in Hw as ([s2 werr] & Hs2 & Hw).
  apply bind_Ret in Hw as (s3 & Hs3 & Hw).
  apply IH in Hw.
  assert (flush_frame s s1) as F1.
  { destruct err; [by eapply flush_frame_send|].
    injection Hs1 as <-. apply flush_frame_refl. }
  assert (flush_frame (kafka.Log kafka.SuperVerbose
                         (kafka.WritingOffsets topic (kafka.toWrite_of offs)) s1)
                      s2) as F2.
  { eapply flush_frame_write; [|done].
    exists (kafka.toWrite_of offs). rewrite Henc. split; [done|].
    apply toWrite_of_sentinel_free. }
  assert (flush_frame s2 s3) as F3.
  { destruct werr; [by eapply flush_frame_send|].
    injection Hs3 as <-. apply flush_frame_refl. }
  eauto using flush_frame_trans, flush_frame_Log.
Qed.

Lemma writeOffsetsToDisk_frame order s s' :
  kafka.writeOffsetsToDisk order s = Ret s' → flush_frame s s'.
Proof.
  unfold kafka.writeOffsetsToDisk. destruct (decide _); [|done].
  apply writeOffsets_range_frame.
Qed.
Lemma Store_files t p o s s' :
  kafka.Store t p o s = Ret s' → store_files s' = store_files s.
Proof.
  unfold kafka.Store. destruct (decide _); [by intros [= <-]|].
  intros Hs. apply bind_Ret in Hs as (c & _ & Hs). by injection Hs as <-.
Qed.

Lemma Query_db t s s' m err :
  kafka.Query t s = Ret (s', m, err) →
  ∃ d, kafka.db s = Some d ∧ kafka.db s' = Some (kafka.Diskv_Read t d).1.
Proof.
  unfold kafka.Query. destruct (kafka.db s) as [d|]; [|done].
  destruct (kafka.Diskv_Read t d) as [d' r] eqn:Hr.
  destruct r as [val| |e]; [destruct (kafka.gob_decode val)|..];
    intros Hq; injection Hq as <- _ _; exists d; by rewrite Hr.
Qed.

Lemma Query_files t s s' m err :
  kafka.Query t s = Ret (s', m, err) → store_files s' = store_files s.
Proof.
  intros (d & Hd & Hd')%Query_db. unfold store_files. rewrite Hd, Hd'.
  unfold kafka.Diskv_Read. by destruct (kafka.rfail d) as [|[e|] ?].
Qed.

Lemma loop_iteration_files c s s' :
  kafka.loop_iteration c s = Ret s' → files_ok s s'.
Proof.
  unfold kafka.loop_iteration. destruct (decide _); [done|].
  destruct c as [order|order].
  - by intros [] %writeOffsetsToDisk_frame.
  - destruct (buf (kafka.in_ s)) as [|p rest].
    + destruct (closed (kafka.in_ s)); [|done]. intros Hs.
      apply bind_Ret in Hs as (s1 & [] %writeOffsetsToDisk_frame & Hs).
      injection Hs as <-. intros t b Hb. by apply frame_files0.
    + intros Hs. injection Hs as <-. by apply files_ok_same.
Qed.

Lemma loop_until_done_files sched s s' :
  kafka.loop_until_done sched s = Ret s' → files_ok s s'.
Proof.
  revert s. induction sched as [|c sched IH]; intros s; simpl.
  - destruct (decide _); [|done]. intros [= <-]. apply files_ok_refl.
  - destruct (decide _); [intros [= <-]; apply files_ok_refl|].
    intros Hs. apply bind_Ret in Hs as (s1 & Hs1 & Hs).
    eauto using files_ok_trans, loop_iteration_files.
Qed.

Lemma close_files sched s s' :
  kafka.close sched (Some s) = Ret (Some s') → files_ok s s'.
Proof.
  unfold kafka.close. destruct (kafka.db s) as [d|] eqn:Hd.
  - intros Hs. apply bind_Ret in Hs as (c & _ & Hs).
    apply bind_Ret in Hs as (s1 & Hs1%loop_until_done_files & Hs).
    apply bind_Ret in Hs as (c' & _ & Hs). injection Hs as <-.
    intros t b Hb. apply Hs1 in Hb as [Hb|?]; [left|by right].
    revert Hb. unfold store_files. simpl. by rewrite Hd.
  - intros [= <-]. apply files_ok_refl.
Qed.

Lemma exec_files c s s' : kafka.exec c s = Ret s' → files_ok s s'.
Proof.
  destruct c as [|t p o|t|c|sched]; simpl.
  - intros [= <-]. by apply files_ok_same.
  - intros ?%Store_files. by apply files_ok_same.
  - intros Hs. apply bind_Ret in Hs as ([[s1 m] err] & Hq%Query_files & Hs).
    injection Hs as <-. by apply files_ok_same.
  - apply loop_iteration_files.
  - intros Hs. apply bind_Ret in Hs as (r & Hc & Hs). injection Hs as <-.
    destruct r as [s1|]; [by eapply close_files|apply files_ok_refl].
Qed.

Lemma run_files calls s s' : kafka.run calls s = Ret s' → files_ok s s'.
Proof.
  revert s. induction calls as [|c calls IH]; intros s; simpl.
  - intros [= <-]. apply files_ok_refl.
  - intros Hs. apply bind_Ret in Hs as (s1 & Hs1 & Hs).
    eauto using files_ok_trans, exec_files.
Qed.

(** C3. Whatever calls are made on a store, sentinel offsets among them
    or not, every record found on its disk afterwards is a record that was
    there before the calls or the encoding of a mapping without sentinel
    offset; and [Store] with either sentinel returns at once and leaves
    the store as it is. *)
Theorem no_sentinel_persisted (calls : list kafka.call) s s'
    (t : string) (b : Bytes) (topic : string) (partition : Z) :
  kafka.run calls s = Ret s' →
  store_files s' !! t = Some b →
  (store_files s !! t = Some b ∨ clean_record b) ∧
  kafka.Store topic partition sarama.OffsetOldest s = Ret s ∧
  kafka.Store topic partition sarama.OffsetNewest s = Ret s.
Proof.
  intros Hrun Hb. split; [by eapply run_files|]. by split.
Qed.
End store_properties.

Section last_write_wins.
Context {Bytes Cause : Type} `{!kafka.Gob Bytes Cause}.
Implicit Types (s : kafka.localOffsetStore Bytes Cause).
Variable t : string.
Variable pt : Z.

Lemma merge_single (p : kafka.progress) (m : gmap string (gmap Z Z)) :
  kafka.topic p = t → kafka.partition p = pt →
  m = ∅ ∨ (∃ v, ¬ sentinel v ∧ m = {[t := {[pt := v]}]}) →
  kafka.merge p m = {[t := {[pt := kafka.offset p]}]}.
Proof.
  intros Ht Hpt [->|(v & _ & ->)]; unfold kafka.merge; rewrite Ht, Hpt.
  - rewrite lookup_empty, lookup_insert_eq. simpl.
    by rewrite insert_insert_eq, !insert_empty.
  - rewrite lookup_singleton_eq, lookup_singleton_eq. simpl.
    by rewrite !insert_singleton_eq.
Qed.

Lemma current_single s v :
  kafka.offsets s = {[t := {[pt := v]}]} → current t pt s = [v].
Proof.
  intros Hs. unfold current. rewrite Hs, lookup_singleton_eq. simpl.
  by rewrite lookup_singleton_eq.
Qed.

(** One call on the partition keeps the store in shape and appends what
    it stored, if that is a real offset, to what is pending. *)
Lemma exec_single_partition c s s' :
  single_partition t pt s → on_partition t pt c →
  kafka.exec c s = Ret s' →
  single_partition t pt s' ∧
  read_script s' = read_script s ∧
  last (pending t pt s')
  = last (pending t pt s ++ filter (λ o, ¬ sentinel o) (stored [c])).
Proof.
  intros [Hopen Hq Hoffs] Hc Hs.
  destruct c as [|t' pt' o|?|[order|order]|?]; try done; simpl in Hs.
  - destruct Hc as [-> ->]. unfold kafka.Store in Hs.
    destruct (decide _) as [Hsen|Hreal].
    + injection Hs as <-. split_and!; [done..|].
      change (stored _) with [o].
      rewrite filter_cons_False; [|unfold sentinel; tauto].
      by rewrite filter_nil, app_nil_r.
    + apply bind_Ret in Hs as (c & Hsend & Hs). injection Hs as <-.
      unfold chan_send in Hsend. rewrite Hopen in Hsend.
      destruct (bool_decide _); [|done]. injection Hsend as <-.
      split_and!; [split; simpl; [done| |done]|done|].
      * apply Forall_app. split; [done|]. apply Forall_singleton.
        simpl. unfold sentinel. tauto.
      * change (stored _) with [o]. rewrite filter_cons_True; [|done].
        rewrite filter_nil. unfold pending, current. simpl.
        by rewrite fmap_app, app_assoc.
  - unfold kafka.loop_iteration in Hs. destruct (decide _); [done|].
    apply writeOffsetsToDisk_frame in Hs as [Fo Fi _ Fr _ _ _].
    split_and!; [split; by rewrite ?Fi, ?Fo|done|].
    change (stored _) with (@nil Z). rewrite filter_nil, app_nil_r.
    unfold pending, current. by rewrite Fo, Fi.
  - unfold kafka.loop_iteration in Hs. destruct (decide _); [done|].
    destruct (buf (kafka.in_ s)) as [|p rest] eqn:Hbuf.
    { by rewrite Hopen in Hs. }
    injection Hs as <-. apply Forall_cons in Hq as [(Htp & Hpp & Hreal) Hq].
    pose proof (merge_single p _ Htp Hpp Hoffs) as Hm.
    split_and!; [split; simpl; [done..|]|done|].
    + right. by exists (kafka.offset p).
    + change (stored _) with (@nil Z). rewrite filter_nil, app_nil_r.
      unfold pending. rewrite Hbuf.
      rewrite (current_single _ (kafka.offset p)) by done. simpl.
      by rewrite last_app_cons.
Qed.

Lemma run_single_partition calls s s' :
  single_partition t pt s → Forall (on_partition t pt) calls →
  kafka.run calls s = Ret s' →
  single_partition t pt s' ∧
  read_script s' = read_script s ∧
  last (pending t pt s')
  = last (pending t pt s ++ filter (λ o, ¬ sentinel o) (stored calls)).
Proof.
  revert s. induction calls as [|c calls IH]; intros s Hsp Hcalls Hrun.
  { injection Hrun as <-. split_and!; [done..|].
    change (stored _) with (@nil Z). by rewrite filter_nil, app_nil_r. }
  apply Forall_cons in Hcalls as [Hc Hcalls]. simpl in Hrun.
  apply bind_Ret in Hrun as (s1 & Hs1 & Hrun).
  destruct (exec_single_partition _ _ _ Hsp Hc Hs1) as (Hsp1 & Hr1 & Hl1).
  destruct (IH _ Hsp1 Hcalls Hrun) as (Hsp' & Hr' & Hl').
  split_and!; [done|congruence|].
  replace (stored (c :: calls)) with (stored [c] ++ stored calls)
    by (by destruct c).
  rewrite Hl', filter_app, app_assoc.
  rewrite !(last_app _ (filter _ (stored calls))). by rewrite Hl1.
Qed.

(** A flush of a map with the one topic, when nothing is reported on the
    error channel, has written the topic's record. *)
Lemma flush_single order s s' (m : gmap Z Z) :
  kafka.offsets s = {[t := m]} →
  size (kafka.toWrite_of m) ≠ 0%nat →
  kafka.writeOffsetsToDisk order s = Ret s' →
  buf (kafka.writeErrors s') = buf (kafka.writeErrors s) →
  store_files s' !! t = Some (kafka.gob_encode (kafka.toWrite_of m)).1.
Proof.
  intros Hoffs Hsize Hw Herrs. unfold kafka.writeOffsetsToDisk in Hw.
  rewrite Hoffs, map_to_list_singleton in Hw.
  destruct (decide _) as [->%Permutation_singleton_r|]; [|done].
  unfold kafka.range_in_order in Hw. simpl in Hw.
  rewrite lookup_singleton_eq in Hw. simpl in Hw.
  destruct (decide _); [done|].
  destruct (kafka.gob_encode (kafka.toWrite_of m)) as [buff err].
  apply bind_Ret in Hw as (s1 & Hs1 & Hw).
  apply bind_Ret in Hw as ([s2 werr] & Hs2 & Hw).
  apply bind_Ret in Hw as (s3 & Hs3 & Hw). injection Hw as <-.
  apply db_Write_Ret in Hs2 as (d & Hd & -> & ->).
  assert (∀ l (e : kafka.error Cause) l', l ++ e :: l' ≠ l) as Hgrow.
  { intros l e l' Heq%(f_equal length). rewrite length_app in Heq.
    simpl in Heq. lia. }
  destruct err as [e|].
  { apply send_error_Ret in Hs1 as ->. exfalso.
    destruct (kafka.Diskv_Write t buff d).2 as [e'|].
    - apply send_error_Ret in Hs3 as ->. simpl in Herrs.
      rewrite <- app_assoc in Herrs. by apply Hgrow in Herrs.
    - injection Hs3 as <-. by apply Hgrow in Herrs. }
  injection Hs1 as <-.
  destruct (kafka.Diskv_Write t buff d).2 as [e'|] eqn:Hwr.
  { apply send_error_Ret in Hs3 as ->. exfalso. by apply Hgrow in Herrs. }
  injection Hs3 as <-. unfold store_files. simpl.
  by rewrite Diskv_Write_files, Hwr, lookup_insert_eq.
Qed.

(** [Query] of a record that reads and decodes. *)
Lemma Query_found s (b : Bytes) (m : gmap Z Z) :
  store_files s !! t = Some b →
  hd None <$> read_script s = Some None →
  kafka.gob_decode b = inr m →
  ∃ s', kafka.Query t s = Ret (s', Some m, None).
Proof.
  unfold store_files, read_script, kafka.Query.
  destruct (kafka.db s) as [d|]; [|done]. simpl. intros Hb Hr Hdec.
  unfold kafka.Diskv_Read. rewrite Hb.
  destruct (kafka.rfail d) as [|[e|] ?]; [|done|]; rewrite Hdec; by eexists.
Qed.

(** Last write wins on a store that has seen nothing else: on a store that
    was created and started, after any sequence of [Store] calls on one
    partition and no other call, interleaved in any way with turns of the
    loop, that the loop has consumed entirely, a flush that reports no
    error followed by [Query] of the topic returns a mapping that holds
    for the partition the last offset stored that is not a sentinel. The
    codec is taken to decode what it encoded and the read not to fail.
    With another topic in the in-memory map this is not so: a flush that
    meets an empty entry first writes nothing. *)
Theorem query_after_flush_last_stored
    (prn : list (kafka.level * kafka.log_msg)) (d0 : kafka.Diskv Bytes Cause)
    (calls : list kafka.call) s1 (order : list string) s2 (o : Z) :
  (∀ m, kafka.gob_decode (kafka.gob_encode m).1 = inr m) →
  hd None (kafka.rfail d0) = None →
  Forall (on_partition t pt) calls →
  kafka.run calls (kafka.start (kafka.newLocalOffsetStore prn d0)) = Ret s1 →
  buf (kafka.in_ s1) = [] →
  last_real (stored calls) = Some o →
  kafka.loop_iteration (kafka.TickerC order) s1 = Ret s2 →
  buf (kafka.writeErrors s2) = buf (kafka.writeErrors s1) →
  ∃ s3 m, kafka.Query t s2 = Ret (s3, Some m, None) ∧ m !! pt = Some o.
Proof.
  intros Hgob Hread Hcalls Hrun Hempty Hlast Hflush Herrs.
  destruct (run_single_partition calls
              (kafka.start (kafka.newLocalOffsetStore prn d0)) s1)
    as ([_ _ Hoffs] & Hr & Hl); [by split; [..|left]|done..|].
  replace (pending t pt (kafka.start _)) with (@nil Z) in Hl
    by (unfold pending, current; simpl; by rewrite lookup_empty).
  unfold pending in Hl. rewrite Hempty, app_nil_r in Hl.
  change (last (current t pt s1) = last_real (stored calls)) in Hl.
  rewrite Hlast in Hl.
  assert (¬ sentinel o ∧ kafka.offsets s1 = {[t := {[pt := o]}]})
    as [Hreal Hs1].
  { destruct Hoffs as [Hoffs|(v & Hv & Hoffs)].
    - unfold current in Hl. by rewrite Hoffs, lookup_empty in Hl.
    - rewrite (current_single _ v) in Hl by done. by injection Hl as ->. }
  assert (kafka.toWrite_of {[pt := o]} = ({[pt := o]} : gmap Z Z)) as Hkeep.
  { unfold kafka.toWrite_of. apply map_filter_singleton_True. simpl.
    unfold sentinel in Hreal. tauto. }
  unfold kafka.loop_iteration in Hflush. destruct (decide _); [done|].
  pose proof (flush_single order s1 s2 _ Hs1) as Hfile.
  rewrite Hkeep, map_size_singleton in Hfile.
  specialize (Hfile ltac:(done) Hflush Herrs).
  apply writeOffsetsToDisk_frame in Hflush as [_ _ _ Fr _ _ _].
  destruct (Query_found s2 _ {[pt := o]} Hfile) as [s3 Hq].
  - rewrite Fr, Hr. simpl. by rewrite Hread.
  - apply Hgob.
  - exists s3, {[pt := o]}. split; [done|apply lookup_singleton_eq].
Qed.
End last_write_wins.

Section query_close.
Context {Bytes Cause : Type} `{!kafka.Gob Bytes Cause}.
Implicit Types (s : kafka.localOffsetStore Bytes Cause).

(** C9. [Query] on a store with a disk always returns. When the topic has
    no record on the disk and the read does not fail, it returns the empty
    mapping and the nil error and leaves an empty entry for the topic in
    the in-memory map. When the read fails, or the record does not
    decode, it returns that error (wrapped, for a decoding error) with a
    nil mapping and does not touch the in-memory map. *)
Theorem Query_missing_record_is_empty (topic : string) s
    (d : kafka.Diskv Bytes Cause) :
  kafka.db s = Some d →
  ∃ s' m err,
    kafka.Query topic s = Ret (s', m, err) ∧
    (kafka.files d !! topic = None → hd None (kafka.rfail d) = None →
     m = Some ∅ ∧ err = None ∧
     kafka.offsets s' = <[topic := ∅]> (kafka.offsets s)) ∧
    (∀ e, hd None (kafka.rfail d) = Some e →
     m = None ∧ err = Some (kafka.Raw e) ∧
     kafka.offsets s' = kafka.offsets s) ∧
    (∀ val e, hd None (kafka.rfail d) = None →
     kafka.files d !! topic = Some val → kafka.gob_decode val = inl e →
     m = None ∧
     err = Some (kafka.Wrapf e (kafka.FailedToDeserialise topic)) ∧
     kafka.offsets s' = kafka.offsets s).
Proof.
  intros Hd. unfold kafka.Query, kafka.Diskv_Read. rewrite Hd.
  destruct (kafka.rfail d) as [|[e|] rest]; simpl.
  2:{ do 3 eexists. split; [done|]. split_and!; [done| |done].
      by intros ? [= <-]. }
  all: destruct (kafka.files d !! topic) as [val|];
         [destruct (kafka.gob_decode val) as [e|m] eqn:Hdec|];
         do 3 eexists; (split; [done|]); split_and!; try done;
         intros ?? _ [= <-]; rewrite Hdec; by intros [= <-].
Qed.

(** C10. [close] on a nil store, or on a store whose [db] is nil, returns
    at once with the store untouched: no channel is closed, nothing is
    logged or flushed, and the call does not wait for the loop, whatever
    the loop would do. *)
Theorem close_nil_is_noop (sched : list kafka.selected) s :
  kafka.close sched (None : option (kafka.localOffsetStore Bytes Cause))
  = Ret None ∧
  kafka.close sched (Some (kafka.with_db None s))
  = Ret (Some (kafka.with_db None s)).
Proof. done. Qed.
End query_close.

Section flush_and_close.
Context {Bytes Cause : Type} `{!kafka.Gob Bytes Cause}.
Implicit Types (s : kafka.localOffsetStore Bytes Cause).

(** An entry with nothing to write ends the whole flush: the entries that
    [range] would yield after it are not visited. *)
Lemma writeOffsets_range_stops (t : string) (offs : gmap Z Z) rest s :
  kafka.toWrite_of offs = ∅ →
  kafka.writeOffsets_range ((t, offs) :: rest) s = Ret s.
Proof. intros Hempty. simpl. by rewrite Hempty, map_size_empty. Qed.

(** An entry with something to write is dealt with, errors included, and
    the flush goes on with the entries after it. *)
Lemma writeOffsets_range_goes_on (t : string) (offs : gmap Z Z) rest s :
  kafka.toWrite_of offs ≠ ∅ →
  kafka.writeOffsets_range ((t, offs) :: rest) s
  = s' ← kafka.writeOffsets_range [(t, offs)] s;
    kafka.writeOffsets_range rest s'.
Proof.
  intros Hne%map_size_non_empty_iff. cbn [kafka.writeOffsets_range].
  destruct (decide _); [done|].
  destruct (kafka.gob_encode _) as [buff err].
  destruct (match err with Some e => _ | None => _ end) as [s1| |]; [|done..].
  cbn [mbind outcome_bind].
  destruct (kafka.db_Write _ _ _) as [[s2 werr]| |]; [|done..].
  cbn [mbind outcome_bind].
  by destruct (match werr with Some e => _ | None => _ end) as [s3| |].
Qed.

(** The loop of a started store whose queue was closed, once it has
    returned, has emptied the queue. *)
Lemma loop_until_done_drained sched s s' :
  closed (kafka.in_ s) = true → kafka.wg s = 1%nat →
  kafka.loop_until_done sched s = Ret s' →
  buf (kafka.in_ s') = [] ∧ closed (kafka.in_ s') = true ∧
  kafka.wg s' = 0%nat.
Proof.
  revert s. induction sched as [|c sched IH]; intros s Hclosed Hwg; simpl;
    (destruct (decide _) as [Hz|_]; [lia|]); [done|].
  intros Hrun. apply bind_Ret in Hrun as (s1 & Hs1 & Hrun).
  unfold kafka.loop_iteration in Hs1. destruct (decide _) as [Hz|_]; [lia|].
  destruct c as [order|order].
  - apply writeOffsetsToDisk_frame in Hs1 as [_ Fi Fw _ _ _ _].
    apply (IH s1); [by rewrite Fi|by rewrite Fw|done].
  - destruct (buf (kafka.in_ s)) as [|p rest] eqn:Hbuf.
    + rewrite Hclosed in Hs1. apply bind_Ret in Hs1 as (sf & Hsf & Hs1).
      apply writeOffsetsToDisk_frame in Hsf as [_ Fi Fw _ _ _ _].
      injection Hs1 as <-. simpl in Fi, Fw.
      assert (kafka.loop_until_done sched
                (kafka.with_wg (Nat.pred (kafka.wg sf)) sf)
              = Ret (kafka.with_wg (Nat.pred (kafka.wg sf)) sf)) as Hdone.
      { destruct sched; simpl; rewrite Fw, Hwg; by destruct (decide _). }
      rewrite Hdone in Hrun. injection Hrun as <-. simpl.
      by rewrite Fi, Fw, Hbuf, Hclosed, Hwg.
    + injection Hs1 as <-. by apply IH in Hrun.
Qed.

(** [close] on a started store with a disk, once it has returned, has
    closed both channels, and the loop has emptied the queue and
    returned. *)
Lemma close_drains sched s s' :
  is_Some (kafka.db s) → kafka.wg s = 1%nat →
  kafka.close sched (Some s) = Ret (Some s') →
  closed (kafka.in_ s') = true ∧ buf (kafka.in_ s') = [] ∧
  kafka.wg s' = 0%nat ∧ closed (kafka.writeErrors s') = true.
Proof.
  intros [d Hd] Hwg. unfold kafka.close. rewrite Hd. intros Hc.
  apply bind_Ret in Hc as (c & Hin & Hc).
  apply bind_Ret in Hc as (s1 & Hs1 & Hc).
  apply bind_Ret in Hc as (c' & Herr & Hc). injection Hc as <-.
  apply loop_until_done_drained in Hs1 as (Hbuf & Hclosed & Hwg').
  - unfold chan_close in Herr. destruct (closed (kafka.writeErrors s1));
      [done|]. by injection Herr as <-.
  - unfold chan_close in Hin. simpl in Hin.
    destruct (closed (kafka.in_ s)); [done|]. by injection Hin as <-.
  - done.
Qed.
End flush_and_close.

(** * Closed runs *)

Lemma entries_gob_round_trip (m : gmap Z Z) :
  kafka.gob_decode (kafka.gob_encode m).1 = inr m.
Proof.
  simpl. rewrite decide_True by apply NoDup_fst_map_to_list.
  by rewrite list_to_map_to_list.
Qed.

Lemma query_after_flush_last_stored_witness :
  ∃ s1 s2 s3 m,
    kafka.run sample.orders_calls sample.fresh = Ret s1 ∧
    kafka.loop_iteration (kafka.TickerC ["orders"%string]) s1 = Ret s2 ∧
    kafka.Query "orders" s2 = Ret (s3, Some m, None) ∧
    m !! 0 = Some 10.
Proof.
  assert (∃ s1 s2,
            kafka.run sample.orders_calls sample.fresh = Ret s1 ∧
            buf (kafka.in_ s1) = [] ∧
            kafka.loop_iteration (kafka.TickerC ["orders"%string]) s1 = Ret s2 ∧
            buf (kafka.writeErrors s2) = buf (kafka.writeErrors s1))
    as (s1 & s2 & Hrun & Hbuf & Hflush & Herrs).
  { do 2 eexists. split; [vm_compute; reflexivity|].
    split; [reflexivity|]. split; [vm_compute; reflexivity|reflexivity]. }
  destruct (query_after_flush_last_stored "orders" 0 [] sample.empty_disk
              sample.orders_calls s1 ["orders"%string] s2 10)
    as (s3 & m & Hq & Hm).
  - apply entries_gob_round_trip.
  - reflexivity.
  - repeat (constructor; [simpl; tauto|]). constructor.
  - exact Hrun.
  - exact Hbuf.
  - vm_compute. reflexivity.
  - exact Hflush.
  - exact Herrs.
  - exists s1, s2, s3, m. tauto.
Defined.

Lemma no_sentinel_persisted_witness :
  ∃ s',
    kafka.run (sample.orders_calls
               ++ [kafka.LoopTurn (kafka.TickerC ["orders"%string])])
              sample.fresh = Ret s' ∧
    store_files s' !! "orders" = Some [(0, 10)] ∧
    clean_record [(0, 10)].
Proof.
  assert (∃ s',
            kafka.run (sample.orders_calls
                       ++ [kafka.LoopTurn (kafka.TickerC ["orders"%string])])
                      sample.fresh = Ret s' ∧
            store_files s' !! "orders" = Some [(0, 10)])
    as (s' & Hrun & Hfile).
  { eexists. split; vm_compute; reflexivity. }
  destruct (no_sentinel_persisted _ sample.fresh s' "orders" [(0, 10)]
              "orders" 0 Hrun Hfile) as [[Hold|Hclean] _].
  - vm_compute in Hold. discriminate Hold.
  - exists s'. tauto.
Defined.

Lemma Query_missing_record_is_empty_witness :
  (∃ s', kafka.Query "orders" sample.fresh = Ret (s', Some ∅, None) ∧
         kafka.offsets s' = {["orders" := ∅]}) ∧
  (∃ s', kafka.Query "orders" (kafka.newLocalOffsetStore [] sample.failing_disk)
         = Ret (s', None, Some (kafka.Raw "input/output error"%string)) ∧
         kafka.offsets s' = ∅) ∧
  (∃ s', kafka.Query "orders" (kafka.newLocalOffsetStore [] sample.corrupt_disk)
         = Ret (s', None,
                Some (kafka.Wrapf "duplicate map key"%string
                                  (kafka.FailedToDeserialise "orders"))) ∧
         kafka.offsets s' = ∅).
Proof.
  split_and!.
  - destruct (Query_missing_record_is_empty "orders" sample.fresh
                sample.empty_disk eq_refl)
      as (s' & m & err & Hq & Hmissing & _).
    destruct (Hmissing eq_refl eq_refl) as (-> & -> & Hoffs).
    exists s'. split; [exact Hq|]. rewrite Hoffs. reflexivity.
  - destruct (Query_missing_record_is_empty "orders"
                (kafka.newLocalOffsetStore [] sample.failing_disk)
                sample.failing_disk eq_refl)
      as (s' & m & err & Hq & _ & Hfault & _).
    destruct (Hfault _ eq_refl) as (-> & -> & Hoffs).
    exists s'. split; [exact Hq|exact Hoffs].
  - destruct (Query_missing_record_is_empty "orders"
                (kafka.newLocalOffsetStore [] sample.corrupt_disk)
                sample.corrupt_disk eq_refl)
      as (s' & m & err & Hq & _ & _ & Hcorrupt).
    destruct (Hcorrupt [(0, 1); (0, 2)] "duplicate map key"%string
                eq_refl eq_refl eq_refl) as (-> & -> & Hoffs).
    exists s'. split; [exact Hq|exact Hoffs].
Defined.

(** C1. The in-memory map after [sample.startup_calls] holds an empty
    mapping for "payments" and partition 0 at offset 5 for "orders". A flush
    whose [range] yields "payments" first returns there: no record is
    written for "orders" and no error is reported. A flush that yields
    "orders" first writes its record. *)
Theorem flush_stops_at_empty_topic :
  ∃ s,
    kafka.run sample.startup_calls sample.fresh = Ret s ∧
    kafka.offsets s = {["payments" := ∅; "orders" := {[0 := 5]}]} ∧
    (∃ s', kafka.writeOffsetsToDisk ["payments"; "orders"]%string s = Ret s' ∧
           store_files s' = ∅ ∧ buf (kafka.writeErrors s') = []) ∧
    (∃ s', kafka.writeOffsetsToDisk ["orders"; "payments"]%string s = Ret s' ∧
           store_files s' = {["orders" := [(0, 5)]]}).
Proof.
  eexists. split; [vm_compute; reflexivity|]. split; [vm_compute; reflexivity|].
  split; eexists; (split; [vm_compute; reflexivity|]);
    try split; vm_compute; reflexivity.
Qed.

(** C4. "payments" is queried and has no record, an update for "orders"
    is stored, and [close] is called while the update is still in the
    queue. [close] closes the queue, the loop takes the update into the
    in-memory map, makes its last flush and returns, and the error channel
    is closed. With a last flush whose [range] yields "payments" first, the
    update is on no record: [Query] of "orders" afterwards returns the
    empty mapping. *)
Theorem close_loses_update_behind_empty_topic :
  ∃ s s',
    kafka.run [kafka.CallQuery "payments";
               kafka.CallStore "orders" 0 5;
               kafka.CallClose
                 [kafka.InRecv [];
                  kafka.InRecv ["payments"; "orders"]%string]]
              sample.fresh = Ret s ∧
    closed (kafka.in_ s) = true ∧ buf (kafka.in_ s) = [] ∧
    kafka.wg s = 0%nat ∧ closed (kafka.writeErrors s) = true ∧
    buf (kafka.writeErrors s) = [] ∧
    kafka.offsets s !! "orders" = Some {[0 := 5]} ∧
    store_files s = ∅ ∧
    kafka.Query "orders" s = Ret (s', Some ∅, None).
Proof.
  do 2 eexists. split; [vm_compute; reflexivity|].
  repeat split; vm_compute; reflexivity.
Qed.

(** * Further properties of package kafka *)

Section queue_properties.
Context {Bytes Cause : Type} `{!kafka.Gob Bytes Cause}.
Implicit Types (s : kafka.localOffsetStore Bytes Cause).

Lemma merge_offset_of (p : kafka.progress) (m : gmap string (gmap Z Z))
      (t : string) (pt : Z) :
  offset_of (kafka.merge p m) t pt
  = if decide (t = kafka.topic p ∧ pt = kafka.partition p)
    then Some (kafka.offset p) else offset_of m t pt.
Proof.
  unfold offset_of, kafka.merge.
  destruct (decide (t = kafka.topic p)) as [->|Ht].
  - rewrite lookup_insert_eq. simpl.
    destruct (decide (pt = kafka.partition p)) as [->|Hpt].
    + rewrite lookup_insert_eq. by rewrite decide_True.
    + rewrite lookup_insert_ne by done. rewrite decide_False by tauto.
      destruct (m !! kafka.topic p) as [offs|] eqn:Hm; [by rewrite Hm|].
      by rewrite lookup_insert_eq.
  - rewrite lookup_insert_ne by done. rewrite decide_False by tauto.
    destruct (m !! kafka.topic p); [done|]. by rewrite lookup_insert_ne.
Qed.

(** X1. A running loop that takes the queue's case once per queued update
    empties the queue and applies the updates oldest first: for every
    partition of every topic the in-memory map then holds the newest update
    the queue had for it, or what it held before when the queue had none.
    The disk is not touched. *)
Theorem loop_consumes_queue_in_order s (orders : list (list string))
    (t : string) (pt : Z) :
  kafka.wg s ≠ 0%nat →
  length orders = length (buf (kafka.in_ s)) →
  ∃ s',
    kafka.run (recv_turns orders) s = Ret s' ∧
    buf (kafka.in_ s') = [] ∧
    offset_of (kafka.offsets s') t pt
    = match last (updates_for t pt (buf (kafka.in_ s))) with
      | Some o => Some o
      | None => offset_of (kafka.offsets s) t pt
      end ∧
    store_files s' = store_files s.
Proof.
  revert s. induction orders as [|order orders IH]; intros s Hwg Hlen.
  { destruct (buf (kafka.in_ s)) eqn:Hbuf; [|done]. exists s.
    by rewrite Hbuf. }
  destruct (buf (kafka.in_ s)) as [|p rest] eqn:Hbuf; [done|].
  injection Hlen as Hlen.
  set (s1 := kafka.with_offsets
               (kafka.merge p (kafka.offsets s))
               (kafka.with_in (Chan rest (cap (kafka.in_ s))
                                    (closed (kafka.in_ s))) s)).
  destruct (IH s1 Hwg Hlen) as (s' & Hrun & Hempty & Hoff & Hfiles).
  exists s'. split_and!; [|done| |done].
  - cbn [recv_turns fmap list_fmap kafka.run kafka.exec].
    unfold kafka.loop_iteration. rewrite decide_False by done.
    by rewrite Hbuf.
  - rewrite Hoff. simpl. rewrite merge_offset_of. unfold updates_for.
    destruct (decide (t = kafka.topic p ∧ pt = kafka.partition p))
      as [[-> ->]|Hne].
    + rewrite filter_cons_True by done. rewrite fmap_cons, last_cons.
      by destruct (last _).
    + by rewrite filter_cons_False by (intros [? ?]; by apply Hne).
Qed.

(** X2. [Store] calls with real offsets on an open buffered queue, made
    while the loop consumes nothing, all return exactly when the queue has
    room for all of them, and then the queue holds them behind what it
    held, in call order; otherwise the call that finds the queue full
    blocks. *)
Theorem stores_fill_the_queue s (ps : list kafka.progress) :
  closed (kafka.in_ s) = false →
  cap (kafka.in_ s) ≠ 0%nat →
  (length (buf (kafka.in_ s)) ≤ cap (kafka.in_ s))%nat →
  Forall (λ p, ¬ sentinel (kafka.offset p)) ps →
  kafka.run (store_calls ps) s
  = if decide (length (buf (kafka.in_ s)) + length ps ≤ cap (kafka.in_ s))%nat
    then Ret (kafka.with_in (Chan (buf (kafka.in_ s) ++ ps)
                                  (cap (kafka.in_ s)) false) s)
    else Stuck.
Proof.
  revert s. induction ps as [|p ps IH]; intros s Hopen Hcap Hfit Hreal.
  { simpl. rewrite Nat.add_0_r, app_nil_r, decide_True by done.
    destruct s as [? ? ? ? [b c cl] ?]. simpl in *. by subst. }
  apply Forall_cons in Hreal as [Hp Hreal].
  cbn [store_calls fmap list_fmap kafka.run kafka.exec].
  unfold kafka.Store. rewrite decide_False by done.
  unfold chan_send. rewrite Hopen.
  destruct (decide (length (buf (kafka.in_ s)) < cap (kafka.in_ s))%nat)
    as [Hroom|Hfull].
  - rewrite bool_decide_eq_true_2 by (by right).
    cbn [mbind outcome_bind mret outcome_ret].
    fold (store_calls ps). rewrite IH; simpl; [|done|done| |done].
    + rewrite length_app. simpl.
      destruct p as [tp pp op]. simpl.
      repeat case_decide; try lia; [|done]. unfold kafka.with_in. simpl.
      rewrite <- app_assoc. reflexivity.
    + rewrite length_app. simpl. lia.
  - rewrite bool_decide_eq_false_2 by (intros [?|?]; [done|lia]).
    simpl. rewrite decide_False; [done|lia].
Qed.

Lemma foldl_merge_offset_of (ps : list kafka.progress)
      (m : gmap string (gmap Z Z)) (t : string) (pt : Z) :
  offset_of (foldl (λ m p, kafka.merge p m) m ps) t pt
  = match last (updates_for t pt ps) with
    | Some o => Some o
    | None => offset_of m t pt
    end.
Proof.
  revert m. induction ps as [|p ps IH]; intros m; [done|].
  simpl. rewrite IH, merge_offset_of. unfold updates_for.
  destruct (decide (t = kafka.topic p ∧ pt = kafka.partition p))
    as [[-> ->]|Hne].
  - rewrite filter_cons_True by done. rewrite fmap_cons, last_cons.
    by destruct (last _).
  - by rewrite filter_cons_False by (intros [? ?]; by apply Hne).
Qed.

(** One iteration of the loop keeps the queue's closed flag and the read
    script, and the map that the queued updates lead to; it either leaves
    the loop running or ends it on an empty queue. *)
Lemma loop_iteration_keeps c s s' :
  kafka.loop_iteration c s = Ret s' →
  closed (kafka.in_ s') = closed (kafka.in_ s) ∧
  read_script s' = read_script s ∧
  merged s' = merged s ∧
  (kafka.wg s' = kafka.wg s ∨
   (kafka.wg s' = Nat.pred (kafka.wg s) ∧ buf (kafka.in_ s') = [])).
Proof.
  unfold kafka.loop_iteration. destruct (decide _); [done|].
  destruct c as [order|order].
  - intros [Fo Fi Fw Fr _ _ _]%writeOffsetsToDisk_frame. unfold merged.
    rewrite Fo, Fi. split_and!; [done..|by left].
  - destruct (buf (kafka.in_ s)) as [|p rest] eqn:Hbuf.
    + destruct (closed (kafka.in_ s)) eqn:Hcl; [|done]. intros Hs.
      apply bind_Ret in Hs
        as (sf & [Fo Fi Fw Fr _ _ _]%writeOffsetsToDisk_frame & Hs).
      injection Hs as <-. unfold merged, read_script in *. simpl in *.
      rewrite Fo, Fi, Fw, Fr, Hbuf. split_and!; [done..|by right].
    + intros Hs. injection Hs as <-. unfold merged. simpl. rewrite Hbuf.
      split_and!; [done..|by left].
Qed.

Lemma loop_until_done_keeps sched s s' :
  kafka.loop_until_done sched s = Ret s' →
  closed (kafka.in_ s') = closed (kafka.in_ s) ∧
  read_script s' = read_script s ∧
  merged s' = merged s ∧
  kafka.wg s' = 0%nat ∧
  (kafka.wg s = 1%nat → buf (kafka.in_ s') = []).
Proof.
  revert s. induction sched as [|c sched IH]; intros s; simpl.
  - destruct (decide _) as [Hz|]; [|done]. intros [= <-].
    split_and!; [done..|lia].
  - destruct (decide _) as [Hz|Hnz].
    { intros [= <-]. split_and!; [done..|lia]. }
    intros Hs. apply bind_Ret in Hs as (s1 & Hs1 & Hs).
    apply loop_iteration_keeps in Hs1 as (Hc1 & Hr1 & Hm1 & Hw1).
    destruct (IH _ Hs) as (Hc & Hr & Hm & Hw & Hb).
    split_and!; [congruence..|done|]. intros Hone.
    destruct Hw1 as [Hw1|[Hw1 Hempty]]; [apply Hb; congruence|].
    destruct sched; simpl in Hs; rewrite decide_True in Hs by lia;
      by injection Hs as <-.
Qed.

(** X3. Whenever [close] returns on a store with a disk whose loop is
    running, every update that was queued has been applied to the
    in-memory map, oldest first: for every partition of every topic the map
    holds the newest queued update, or what it held before when none was
    queued. The queue is then empty and closed, the loop has returned and
    the error channel is closed. *)
Theorem close_applies_every_queued_update (sched : list kafka.selected) s s'
    (t : string) (pt : Z) :
  is_Some (kafka.db s) → kafka.wg s = 1%nat →
  kafka.close sched (Some s) = Ret (Some s') →
  offset_of (kafka.offsets s') t pt
  = match last (updates_for t pt (buf (kafka.in_ s))) with
    | Some o => Some o
    | None => offset_of (kafka.offsets s) t pt
    end ∧
  buf (kafka.in_ s') = [] ∧ closed (kafka.in_ s') = true ∧
  kafka.wg s' = 0%nat ∧ closed (kafka.writeErrors s') = true.
Proof.
  intros [d Hd] Hwg. unfold kafka.close. rewrite Hd. intros Hc.
  apply bind_Ret in Hc as (c & Hin & Hc).
  apply bind_Ret in Hc as (s1 & Hs1 & Hc).
  apply bind_Ret in Hc as (c' & Herr & Hc). injection Hc as <-.
  unfold chan_close in Hin, Herr. simpl in Hin.
  destruct (closed (kafka.in_ s)); [done|]. injection Hin as <-.
  destruct (closed (kafka.writeErrors s1)); [done|]. injection Herr as <-.
  apply loop_until_done_keeps in Hs1 as (Hc1 & _ & Hm & Hw & Hb).
  specialize (Hb Hwg). simpl in *. unfold merged in Hm. simpl in Hm.
  rewrite Hb in Hm. simpl in Hm. rewrite Hm.
  split_and!; [apply foldl_merge_offset_of|done..].
Qed.

(** X4. After [close] has returned on a store with a disk, a [Store] of a
    real offset panics (it sends on the closed queue) and so does a second
    [close], whereas a [Store] of a sentinel still returns and changes
    nothing. *)
Theorem closed_store_rejects_calls (sched sched' : list kafka.selected) s s'
    (t : string) (pt o : Z) :
  is_Some (kafka.db s) → ¬ sentinel o →
  kafka.close sched (Some s) = Ret (Some s') →
  kafka.Store t pt o s' = Panicked ∧
  kafka.close sched' (Some s') = Panicked ∧
  kafka.Store t pt sarama.OffsetOldest s' = Ret s' ∧
  kafka.Store t pt sarama.OffsetNewest s' = Ret s'.
Proof.
  intros [d Hd] Hreal. unfold kafka.close at 1. rewrite Hd. intros Hc.
  apply bind_Ret in Hc as (c & Hin & Hc).
  apply bind_Ret in Hc as (s1 & Hs1 & Hc).
  apply bind_Ret in Hc as (c' & Herr & Hc). injection Hc as <-.
  unfold chan_close in Hin. simpl in Hin.
  destruct (closed (kafka.in_ s)); [done|]. injection Hin as <-.
  apply loop_until_done_keeps in Hs1 as (Hc1 & Hr & _). simpl in Hc1.
  assert (is_Some (kafka.db s1)) as [d1 Hd1].
  { unfold read_script in Hr. simpl in Hr. rewrite Hd in Hr.
    destruct (kafka.db s1); [by eexists|done]. }
  split_and!; [| |done..].
  - unfold kafka.Store. rewrite decide_False by done.
    unfold chan_send. simpl. by rewrite Hc1.
  - unfold kafka.close. simpl. rewrite Hd1. unfold chan_close. simpl.
    by rewrite Hc1.
Qed.

(** X5. [close] on a store with a disk whose loop was never started returns
    without waiting: the queue and the error channel are closed, but the
    updates still in the queue stay there, the in-memory map is as it was
    and nothing is written to the disk. *)
Theorem close_without_start_drops_queue (sched : list kafka.selected) s :
  is_Some (kafka.db s) → kafka.wg s = 0%nat →
  closed (kafka.in_ s) = false → closed (kafka.writeErrors s) = false →
  ∃ s',
    kafka.close sched (Some s) = Ret (Some s') ∧
    buf (kafka.in_ s') = buf (kafka.in_ s) ∧
    kafka.offsets s' = kafka.offsets s ∧
    store_files s' = store_files s ∧
    closed (kafka.in_ s') = true ∧ closed (kafka.writeErrors s') = true.
Proof.
  intros [d Hd] Hwg Hin Herr. unfold kafka.close. rewrite Hd.
  unfold chan_close. simpl. rewrite Hin. cbn [mbind outcome_bind].
  destruct sched; simpl; rewrite decide_True by done;
    cbn [mbind outcome_bind mret outcome_ret]; simpl; rewrite Herr;
    eexists; (split; [reflexivity|]); unfold store_files; simpl;
    by rewrite Hd.
Qed.
End queue_properties.

Section flush_properties.
Context {Bytes Cause : Type} `{!kafka.Gob Bytes Cause}.
Implicit Types (s : kafka.localOffsetStore Bytes Cause).
Implicit Types (d : kafka.Diskv Bytes Cause).

(** A relation that holds across a send on the error channel, a log line
    and a write holds across the whole range loop of a flush. *)
Lemma writeOffsets_range_steps (R : relation (kafka.localOffsetStore Bytes Cause)) :
  (∀ s, R s s) →
  (∀ s1 s2 s3, R s1 s2 → R s2 s3 → R s1 s3) →
  (∀ e s s', kafka.send_error e s = Ret s' → R s s') →
  (∀ l m s, R s (kafka.Log l m s)) →
  (∀ key val s s' err, kafka.db_Write key val s = Ret (s', err) → R s s') →
  ∀ entries s s', kafka.writeOffsets_range entries s = Ret s' → R s s'.
Proof.
  intros Hrefl Htrans Hsend Hlog Hwrite.
  induction entries as [|[topic offs] rest IH]; intros s s' Hw.
  { injection Hw as <-. apply Hrefl. }
  cbn [kafka.writeOffsets_range] in Hw.
  destruct (decide _) as [_|_]; [injection Hw as <-; apply Hrefl|].
  destruct (kafka.gob_encode (kafka.toWrite_of offs)) as [buff err].
  apply bind_Ret in Hw as (s1 & Hs1 & Hw).
  apply bind_Ret in Hw as ([s2 werr] & Hs2 & Hw).
  apply bind_Ret in Hw as (s3 & Hs3 & Hw).
  apply IH in Hw.
  assert (R s s1) by (destruct err; [by eapply Hsend|by injection Hs1 as <-]).
  assert (R s2 s3) by (destruct werr; [by eapply Hsend|by injection Hs3 as <-]).
  apply Hwrite in Hs2.
  apply (Htrans _ s1); [done|]. eapply Htrans; [apply Hlog|].
  apply (Htrans _ s2); [exact Hs2|]. by apply (Htrans _ s3).
Qed.

Lemma writeOffsets_range_keeps_records entries s s' :
  kafka.writeOffsets_range entries s = Ret s' →
  dom (store_files s) ⊆ dom (store_files s').
Proof.
  apply (writeOffsets_range_steps
           (λ s s', dom (store_files s) ⊆ dom (store_files s'))).
  - done.
  - intros s1 s2 s3 H12 H23. by etrans.
  - by intros e s1 s2 ->%send_error_Ret.
  - done.
  - intros key val s1 s2 err (d & Hd & -> & _)%db_Write_Ret.
    unfold store_files. simpl. rewrite Hd, Diskv_Write_files.
    destruct (kafka.Diskv_Write key val d).2; [done|].
    apply dom_insert_subseteq.
Qed.

(** X6. A flush that returns has left the in-memory map, the queue and the
    loop count as they were; it has removed no record from the disk; and
    the errors handed to the listener before are still there, in order, in
    front of the ones it added. *)
Theorem flush_only_adds (order : list string) s s' :
  kafka.writeOffsetsToDisk order s = Ret s' →
  kafka.offsets s' = kafka.offsets s ∧
  kafka.in_ s' = kafka.in_ s ∧
  kafka.wg s' = kafka.wg s ∧
  dom (store_files s) ⊆ dom (store_files s') ∧
  buf (kafka.writeErrors s) `prefix_of` buf (kafka.writeErrors s').
Proof.
  intros Hw. pose proof (writeOffsetsToDisk_frame _ _ _ Hw)
    as [Fo Fi Fw _ _ _ [errs Fe]].
  split_and!; [done..| |by exists errs].
  unfold kafka.writeOffsetsToDisk in Hw. destruct (decide _); [|done].
  by eapply writeOffsets_range_keeps_records.
Qed.

Lemma send_error_ready e s :
  flush_ready s → ∃ s', kafka.send_error e s = Ret s' ∧ flush_ready s'.
Proof.
  intros (Hdb & Hopen & Hcap). unfold kafka.send_error, chan_send.
  rewrite Hopen, bool_decide_eq_true_2 by (by left).
  eexists. split; [reflexivity|]. by split_and!.
Qed.

(** With a disk and a listened-to error channel the range loop of a flush
    returns, and the store is as ready as before. *)
Lemma writeOffsets_range_returns entries s :
  flush_ready s →
  ∃ s', kafka.writeOffsets_range entries s = Ret s' ∧ flush_ready s'.
Proof.
  revert s. induction entries as [|[topic offs] rest IH]; intros s Hready.
  { by exists s. }
  cbn [kafka.writeOffsets_range].
  destruct (decide _) as [_|_]; [by exists s|].
  destruct (kafka.gob_encode (kafka.toWrite_of offs)) as [buff err].
  assert (∃ s1, match err with
                | Some e => kafka.send_error
                              (kafka.Wrapf e (kafka.FailedToSerialise topic)) s
                | None => mret s
                end = Ret s1 ∧ flush_ready s1) as (s1 & -> & Hr1).
  { destruct err; [by apply send_error_ready|by exists s]. }
  cbn [mbind outcome_bind].
  destruct Hr1 as ([d Hd] & Hopen & Hcap).
  unfold kafka.db_Write. simpl. rewrite Hd.
  destruct (kafka.Diskv_Write topic buff d) as [d' werr].
  cbn [mbind outcome_bind mret outcome_ret].
  set (s2 := kafka.with_db _ _).
  assert (flush_ready s2) as Hr2 by (by split_and!).
  assert (∃ s3, match werr with
                | Some e => kafka.send_error
                              (kafka.Wrapf e (kafka.FailedToWrite topic
                                                (kafka.toWrite_of offs))) s2
                | None => mret s2
                end = Ret s3 ∧ flush_ready s3) as (s3 & -> & Hr3).
  { destruct werr; [by apply send_error_ready|by exists s2]. }
  cbn [mbind outcome_bind]. by apply IH.
Qed.

(** The entries of a map in an order that lists its keys are its entries. *)
Lemma range_in_order_Permutation {V : Type} (order : list string)
      (m : gmap string V) :
  order ≡ₚ (map_to_list m).*1 →
  kafka.range_in_order order m ≡ₚ map_to_list m.
Proof.
  intros Horder. unfold kafka.range_in_order. rewrite Horder.
  assert (∀ l : list (string * V),
            (∀ kv, kv ∈ l → m !! kv.1 = Some kv.2) →
            omap (λ k, (k,.) <$> m !! k) l.*1 = l) as Hl.
  { induction l as [|[k v] l IH]; intros Hin; [done|].
    pose proof (Hin (k, v) ltac:(apply list_elem_of_here)) as Hk.
    simpl in *. rewrite Hk. simpl.
    f_equal. apply IH. intros kv Hkv. apply Hin. by apply list_elem_of_further. }
  rewrite Hl; [done|]. intros [k v] Hkv. by apply elem_of_map_to_list.
Qed.

(** The range loop over writable entries on a disk that does not fail. *)
Lemma writeOffsets_range_clean (entries : list (string * gmap Z Z)) s d :
  kafka.db s = Some d →
  Forall (λ e, writable e.2) entries →
  NoDup entries.*1 →
  no_write_fault (length entries) d →
  ∃ s' d',
    kafka.writeOffsets_range entries s = Ret s' ∧
    kafka.db s' = Some d' ∧
    kafka.files d' = (record_of <$> list_to_map entries) ∪ kafka.files d ∧
    kafka.rfail d' = kafka.rfail d ∧
    kafka.offsets s' = kafka.offsets s ∧
    kafka.in_ s' = kafka.in_ s ∧
    kafka.writeErrors s' = kafka.writeErrors s ∧
    kafka.wfail d' = drop (length entries) (kafka.wfail d).
Proof.
  revert s d. induction entries as [|[topic offs] rest IH];
    intros s d Hd Hwr Hnodup Hfault.
  { exists s, d. split_and!; try done. simpl.
    by rewrite fmap_empty, (left_id_L ∅ (∪)). }
  apply Forall_cons in Hwr as [[Hne Henc] Hwr]. simpl in Hne, Henc.
  apply NoDup_cons in Hnodup as [Hfresh Hnodup].
  cbn [kafka.writeOffsets_range].
  rewrite decide_False by (by apply map_size_non_empty_iff).
  destruct (kafka.gob_encode (kafka.toWrite_of offs)) as [buff err] eqn:Hgob.
  simpl in Henc. subst err. cbn [mbind outcome_bind mret outcome_ret].
  unfold kafka.db_Write. simpl. rewrite Hd.
  assert (kafka.Diskv_Write topic buff d
          = (kafka.MkDiskv (<[topic := buff]> (kafka.files d))
                           (tail (kafka.wfail d)) (kafka.rfail d), None))
    as ->.
  { unfold kafka.Diskv_Write. unfold no_write_fault in Hfault.
    destruct (kafka.wfail d) as [|[e|] fs]; [done| |done].
    simpl in Hfault. by apply Forall_cons in Hfault as [? _]. }
  cbn [mbind outcome_bind mret outcome_ret].
  set (d2 := kafka.MkDiskv _ _ _). set (s2 := kafka.with_db _ _).
  destruct (IH s2 d2)
    as (s' & d' & Hrun & Hd' & Hfiles & Hr & Ho & Hi & He & Hwf);
    [done..| |].
  { unfold no_write_fault in *. simpl in *.
    destruct (kafka.wfail d) as [|f fs]; simpl in *; [by rewrite take_nil|].
    by apply Forall_cons in Hfault as [_ ?]. }
  exists s', d'. split_and!; try done.
  - rewrite Hfiles. simpl. rewrite fmap_insert.
    rewrite <- insert_union_l, <- insert_union_r; [|].
    + by unfold record_of; rewrite Hgob.
    + rewrite lookup_fmap. by rewrite (not_elem_of_list_to_map_1 _ topic).
  - rewrite Hwf. unfold d2. simpl.
    destruct (kafka.wfail d); simpl; [by rewrite drop_nil|done].
Qed.

(** A flush of a store whose topics are all writable, on a disk whose next
    writes do not fail. *)
Lemma writeOffsetsToDisk_clean (order : list string) s d :
  kafka.db s = Some d →
  order ≡ₚ (map_to_list (kafka.offsets s)).*1 →
  map_Forall (λ _ m, writable m) (kafka.offsets s) →
  no_write_fault (size (kafka.offsets s)) d →
  ∃ s' d',
    kafka.writeOffsetsToDisk order s = Ret s' ∧
    kafka.db s' = Some d' ∧
    kafka.files d' = (record_of <$> kafka.offsets s) ∪ kafka.files d ∧
    kafka.rfail d' = kafka.rfail d ∧
    kafka.offsets s' = kafka.offsets s ∧
    kafka.in_ s' = kafka.in_ s ∧
    kafka.writeErrors s' = kafka.writeErrors s.
Proof.
  intros Hd Horder Hwr Hfault. unfold kafka.writeOffsetsToDisk.
  rewrite decide_True by done.
  pose proof (range_in_order_Permutation order _ Horder) as Hperm.
  destruct (writeOffsets_range_clean
              (kafka.range_in_order order (kafka.offsets s)) s d)
    as (s' & d' & Hrun & Hd' & Hfiles & Hrest); [done| | | |].
  - rewrite Hperm. apply Forall_forall. intros [t m] Htm.
    apply elem_of_map_to_list in Htm. by apply (Hwr t m).
  - rewrite Hperm. apply NoDup_fst_map_to_list.
  - by rewrite Hperm, length_map_to_list.
  - exists s', d'. split_and!; try done; try apply Hrest.
    rewrite Hfiles. f_equal. f_equal.
    rewrite <- (list_to_map_to_list (kafka.offsets s)) at 2.
    apply list_to_map_proper; [|done].
    rewrite Hperm. apply NoDup_fst_map_to_list.
Qed.

(** X7. On a store with a disk whose next writes do not fail, a flush of an
    in-memory map whose topics all have something to write that the
    encoder accepts returns, reports no error, and leaves on the disk, for
    every topic of the map, the record of its mapping without sentinels;
    the records of the other topics are as they were. *)
Theorem flush_writes_every_topic (order : list string) s d :
  kafka.db s = Some d →
  order ≡ₚ (map_to_list (kafka.offsets s)).*1 →
  map_Forall (λ _ m, writable m) (kafka.offsets s) →
  no_write_fault (size (kafka.offsets s)) d →
  ∃ s',
    kafka.writeOffsetsToDisk order s = Ret s' ∧
    store_files s' = (record_of <$> kafka.offsets s) ∪ kafka.files d ∧
    kafka.writeErrors s' = kafka.writeErrors s.
Proof.
  intros Hd Horder Hwr Hfault.
  destruct (writeOffsetsToDisk_clean order s d)
    as (s' & d' & Hrun & Hd' & Hfiles & _ & _ & _ & He); [done..|].
  exists s'. split_and!; [done| |done]. unfold store_files. by rewrite Hd'.
Qed.

(** X8. After such a flush, with a codec that decodes what it encoded and
    a read that does not fail, [Query] of any topic of the in-memory map
    returns the topic's mapping without its sentinel entries, and the nil
    error. *)
Theorem flush_then_Query_round_trip (order : list string) s d
    (t : string) (m : gmap Z Z) :
  (∀ m, kafka.gob_decode (kafka.gob_encode m).1 = inr m) →
  kafka.db s = Some d →
  hd None (kafka.rfail d) = None →
  order ≡ₚ (map_to_list (kafka.offsets s)).*1 →
  map_Forall (λ _ m, writable m) (kafka.offsets s) →
  no_write_fault (size (kafka.offsets s)) d →
  kafka.offsets s !! t = Some m →
  ∃ s' s'',
    kafka.writeOffsetsToDisk order s = Ret s' ∧
    kafka.Query t s' = Ret (s'', Some (kafka.toWrite_of m), None).
Proof.
  intros Hgob Hd Hread Horder Hwr Hfault Hm.
  destruct (writeOffsetsToDisk_clean order s d)
    as (s' & d' & Hrun & Hd' & Hfiles & Hr & _); [done..|].
  destruct (Query_found t s' (record_of m) (kafka.toWrite_of m)) as [s'' Hq].
  - unfold store_files. rewrite Hd', Hfiles.
    apply lookup_union_Some_l. by rewrite lookup_fmap, Hm.
  - unfold read_script. rewrite Hd'. simpl. by rewrite Hr, Hread.
  - apply Hgob.
  - by exists s', s''.
Qed.

(** Entries that all have something to write are dealt with one after the
    other: the range loop over two stretches is the loop over the first
    followed by the loop over the second. *)
Lemma writeOffsets_range_app (a b : list (string * gmap Z Z)) s :
  Forall (λ e, kafka.toWrite_of e.2 ≠ ∅) a →
  kafka.writeOffsets_range (a ++ b) s
  = s' ← kafka.writeOffsets_range a s; kafka.writeOffsets_range b s'.
Proof.
  revert s. induction a as [|[topic offs] a IH]; intros s Ha;
    [reflexivity|].
  apply Forall_cons in Ha as [Hne%map_size_non_empty_iff Ha]. simpl in Hne.
  cbn [app kafka.writeOffsets_range]. rewrite !decide_False by done.
  destruct (kafka.gob_encode _) as [buff err].
  destruct (match err with Some e => _ | None => _ end) as [s1| |]; [|done..].
  cbn [mbind outcome_bind].
  destruct (kafka.db_Write _ _ _) as [[s2 werr]| |]; [|done..].
  cbn [mbind outcome_bind].
  destruct (match werr with Some e => _ | None => _ end) as [s3| |]; [|done..].
  cbn [mbind outcome_bind]. by apply IH.
Qed.

Lemma range_in_order_length {V : Type} (order : list string)
      (m : gmap string V) :
  (∀ k, k ∈ order → is_Some (m !! k)) →
  length (kafka.range_in_order order m) = length order.
Proof.
  unfold kafka.range_in_order.
  induction order as [|k order IH]; intros Hin; [done|]. simpl.
  destruct (Hin k) as [v ->]; [apply list_elem_of_here|]. simpl.
  f_equal. apply IH. intros k' Hk'. apply Hin. by apply list_elem_of_further.
Qed.

(** A flush in which the write of one topic fails, on a store that can
    flush and whose topics are all writable: [range] yields the topic [t]
    after the topics [before], and the write for [t] is the one the disk
    fails. *)
Lemma flush_with_one_failed_write (before after : list string) (t : string)
    (m : gmap Z Z) s d (e : Cause) :
  kafka.db s = Some d → flush_ready s →
  before ++ t :: after ≡ₚ (map_to_list (kafka.offsets s)).*1 →
  map_Forall (λ _ m, writable m) (kafka.offsets s) →
  kafka.offsets s !! t = Some m →
  kafka.wfail d = replicate (length before) None ++ [Some e] →
  ∃ s',
    kafka.writeOffsetsToDisk (before ++ t :: after) s = Ret s' ∧
    store_files s'
    = (record_of <$> delete t (kafka.offsets s)) ∪ kafka.files d ∧
    buf (kafka.writeErrors s')
    = buf (kafka.writeErrors s)
      ++ [kafka.Wrapf e (kafka.FailedToWrite t (kafka.toWrite_of m))].
Proof.
  intros Hd (_ & Hopen & Hcap) Horder Hwr Hm Hscript.
  unfold kafka.writeOffsetsToDisk. rewrite decide_True by done.
  pose proof (range_in_order_Permutation _ _ Horder) as Hperm.
  set (pre := kafka.range_in_order before (kafka.offsets s)).
  set (post := kafka.range_in_order after (kafka.offsets s)).
  assert (kafka.range_in_order (before ++ t :: after) (kafka.offsets s)
          = pre ++ (t, m) :: post) as Hsplit.
  { unfold kafka.range_in_order. rewrite omap_app. simpl. by rewrite Hm. }
  rewrite Hsplit in *.
  assert (Forall (λ e, writable e.2) (pre ++ (t, m) :: post)) as Hall.
  { rewrite Hperm. apply Forall_forall. intros [k v] Hkv.
    apply elem_of_map_to_list in Hkv. by apply (Hwr k v). }
  apply Forall_app in Hall as [Hpre Hpost].
  apply Forall_cons in Hpost as [[Hne Henc] Hpost]. simpl in Hne, Henc.
  assert (NoDup (pre ++ (t, m) :: post).*1) as Hnodup.
  { rewrite Hperm. apply NoDup_fst_map_to_list. }
  rewrite fmap_app, fmap_cons in Hnodup. simpl in Hnodup.
  apply NoDup_app in Hnodup as (Hnd_pre & Hdisj & Hnd_post).
  apply NoDup_cons in Hnd_post as [Ht_post Hnd_post].
  assert (length pre = length before) as Hlen.
  { apply range_in_order_length. intros k Hk.
    assert (k ∈ (map_to_list (kafka.offsets s)).*1) as Hin.
    { rewrite <- Horder. apply elem_of_app. by left. }
    apply list_elem_of_fmap in Hin as ([k' v] & -> & Hkv).
    apply elem_of_map_to_list in Hkv. by eexists. }
  assert (list_to_map (pre ++ post) = delete t (kafka.offsets s)) as Hmap.
  { rewrite <- (list_to_map_to_list (delete t (kafka.offsets s))).
    apply list_to_map_proper.
    - rewrite fmap_app. apply NoDup_app. split_and!; [done| |done].
      intros k Hk Hk'. apply (Hdisj k Hk). by apply list_elem_of_further.
    - apply (Permutation_cons_inv (a := (t, m))).
      rewrite map_to_list_delete by done. rewrite <- Hperm.
      apply Permutation_middle. }
  rewrite writeOffsets_range_app
    by (eapply Forall_impl; [exact Hpre|by intros ? []]).
  destruct (writeOffsets_range_clean pre s d)
    as (s1 & d1 & -> & Hd1 & Hf1 & Hr1 & _ & _ & He1 & Hw1); [done..| |].
  { unfold no_write_fault. rewrite Hscript, Hlen.
    rewrite take_app_length' by (by rewrite length_replicate).
    by apply Forall_replicate. }
  rewrite Hscript, Hlen in Hw1.
  rewrite drop_app_length' in Hw1 by (by rewrite length_replicate).
  cbn [mbind outcome_bind kafka.writeOffsets_range].
  rewrite decide_False by (by apply map_size_non_empty_iff).
  destruct (kafka.gob_encode (kafka.toWrite_of m)) as [buff err].
  simpl in Henc. subst err. cbn [mbind outcome_bind mret outcome_ret].
  unfold kafka.db_Write. simpl. rewrite Hd1.
  unfold kafka.Diskv_Write. rewrite Hw1.
  cbn [mbind outcome_bind mret outcome_ret tail].
  unfold kafka.send_error, chan_send. simpl.
  rewrite He1, Hopen, bool_decide_eq_true_2 by (by left).
  cbn [mbind outcome_bind mret outcome_ret].
  set (d2 := kafka.MkDiskv _ _ _). set (s2 := kafka.with_writeErrors _ _).
  destruct (writeOffsets_range_clean post s2 d2)
    as (s' & d' & -> & Hd' & Hf' & _ & _ & _ & He' & _); [done..| |].
  { unfold no_write_fault. simpl. rewrite take_nil. constructor. }
  exists s'. split_and!; [done| |by rewrite He'].
  unfold store_files. rewrite Hd', Hf'. unfold d2. simpl. rewrite Hf1.
  rewrite <- Hmap, list_to_map_app. apply map_eq. intros k.
  rewrite !lookup_union, !lookup_fmap, lookup_union.
  destruct (list_to_map pre !! k) as [x|] eqn:Hx;
    destruct (list_to_map post !! k) as [y|] eqn:Hy; simpl;
    try by destruct (kafka.files d !! k).
  exfalso. apply elem_of_list_to_map_2, (list_elem_of_fmap_2 fst) in Hx, Hy.
  apply (Hdisj k Hx). by apply list_elem_of_further.
Qed.

(** X9. In a flush of an in-memory map whose topics all have something to
    write that the encoder accepts, on a store with a disk and an open,
    listened-to error channel, when [range] yields the topic [t] after the
    topics [before] and the write for [t] is the one write the disk fails:
    the flush returns, the record of every other topic [t'] of the map is
    the record of its mapping (and the record of a topic outside the map
    is as it was), exactly as after a flush without failure, and the
    listener is handed one error, the write error of [t] with its
    mapping. *)
Theorem failed_write_is_isolated (before after : list string) (t t' : string)
    (m : gmap Z Z) s d (e : Cause) :
  kafka.db s = Some d → flush_ready s →
  before ++ t :: after ≡ₚ (map_to_list (kafka.offsets s)).*1 →
  map_Forall (λ _ m, writable m) (kafka.offsets s) →
  kafka.offsets s !! t = Some m →
  kafka.wfail d = replicate (length before) None ++ [Some e] →
  t' ≠ t →
  ∃ s',
    kafka.writeOffsetsToDisk (before ++ t :: after) s = Ret s' ∧
    store_files s' !! t'
    = ((record_of <$> kafka.offsets s) ∪ kafka.files d) !! t' ∧
    buf (kafka.writeErrors s')
    = buf (kafka.writeErrors s)
      ++ [kafka.Wrapf e (kafka.FailedToWrite t (kafka.toWrite_of m))].
Proof.
  intros Hd Hready Horder Hwr Hm Hscript Hne.
  destruct (flush_with_one_failed_write before after t m s d e)
    as (s' & Hflush & Hfiles & Herrs); [done..|].
  exists s'. split_and!; [done| |done].
  rewrite Hfiles, !lookup_union, !lookup_fmap.
  by rewrite lookup_delete_ne.
Qed.

(** The range loop over entries that all have something to write, on a
    store that can flush and a disk whose next writes do not fail: every
    entry is written, with the bytes the encoder left, and the encoder's
    errors are handed to the listener in order. *)
Lemma writeOffsets_range_encoded (entries : list (string * gmap Z Z)) s d :
  kafka.db s = Some d →
  closed (kafka.writeErrors s) = false →
  cap (kafka.writeErrors s) = 0%nat →
  Forall (λ e, kafka.toWrite_of e.2 ≠ ∅) entries →
  NoDup entries.*1 →
  no_write_fault (length entries) d →
  ∃ s' d',
    kafka.writeOffsets_range entries s = Ret s' ∧
    kafka.db s' = Some d' ∧
    kafka.files d' = (record_of <$> list_to_map entries) ∪ kafka.files d ∧
    buf (kafka.writeErrors s')
    = buf (kafka.writeErrors s) ++ serialise_errors entries.
Proof.
  revert s d. induction entries as [|[topic offs] rest IH];
    intros s d Hd Hopen Hcap Hne Hnodup Hfault.
  { exists s, d. split_and!; try done.
    - simpl. by rewrite fmap_empty, (left_id_L ∅ (∪)).
    - by rewrite app_nil_r. }
  apply Forall_cons in Hne as [Hne1 Hne]. simpl in Hne1.
  apply NoDup_cons in Hnodup as [Hfresh Hnodup].
  cbn [kafka.writeOffsets_range].
  rewrite decide_False by (by apply map_size_non_empty_iff).
  unfold serialise_errors. cbn [omap list_omap]. simpl.
  destruct (kafka.gob_encode (kafka.toWrite_of offs)) as [buff err] eqn:Hgob.
  set (s1 := match err with
             | Some e => kafka.with_writeErrors
                           (Chan (buf (kafka.writeErrors s)
                                  ++ [kafka.Wrapf e (kafka.FailedToSerialise topic)])
                                 (cap (kafka.writeErrors s)) false) s
             | None => s
             end).
  assert (match err with
          | Some e => kafka.send_error
                        (kafka.Wrapf e (kafka.FailedToSerialise topic)) s
          | None => mret s
          end = Ret s1) as ->.
  { unfold s1. destruct err as [e|]; [|done].
    unfold kafka.send_error, chan_send.
    by rewrite Hopen, bool_decide_eq_true_2 by (by left). }
  cbn [mbind outcome_bind mret outcome_ret].
  assert (kafka.db s1 = Some d ∧ closed (kafka.writeErrors s1) = false ∧
          cap (kafka.writeErrors s1) = 0%nat ∧
          buf (kafka.writeErrors s1)
          = buf (kafka.writeErrors s)
            ++ match err with
               | Some e => [kafka.Wrapf e (kafka.FailedToSerialise topic)]
               | None => []
               end) as (Hd1 & Hopen1 & Hcap1 & Herr1).
  { unfold s1. destruct err; simpl; split_and!; try done.
    by rewrite app_nil_r. }
  unfold kafka.db_Write. simpl. rewrite Hd1.
  assert (kafka.Diskv_Write topic buff d
          = (kafka.MkDiskv (<[topic := buff]> (kafka.files d))
                           (tail (kafka.wfail d)) (kafka.rfail d), None))
    as ->.
  { unfold kafka.Diskv_Write. unfold no_write_fault in Hfault.
    destruct (kafka.wfail d) as [|[e|] fs]; [done| |done].
    simpl in Hfault. by apply Forall_cons in Hfault as [? _]. }
  cbn [mbind outcome_bind mret outcome_ret].
  set (d2 := kafka.MkDiskv _ _ _). set (s2 := kafka.with_db _ _).
  destruct (IH s2 d2) as (s' & d' & Hrun & Hd' & Hfiles & Herrs);
    [done..| |].
  { unfold no_write_fault in *. simpl in *.
    destruct (kafka.wfail d) as [|f fs]; simpl in *; [by rewrite take_nil|].
    by apply Forall_cons in Hfault as [_ ?]. }
  exists s', d'. split_and!; try done.
  - rewrite Hfiles. simpl. rewrite fmap_insert.
    rewrite <- insert_union_l, <- insert_union_r; [|].
    + by unfold record_of; rewrite Hgob.
    + rewrite lookup_fmap. by rewrite (not_elem_of_list_to_map_1 _ topic).
  - rewrite Herrs. unfold s2. simpl. rewrite Herr1.
    unfold serialise_errors. destruct err; simpl; by rewrite <- app_assoc.
Qed.

(** X19. An error of the encoder does not keep the flush from writing. In a
    flush of an in-memory map whose topics all have something to write, on
    a store with a disk whose next writes do not fail and an open,
    listened-to error channel, for every order of [range]: the flush
    returns, the record of every topic of the map is overwritten with the
    bytes the encoder left in the buffer for its mapping, whether the
    encoder reported an error for it or not, and the listener is handed,
    in the order of [range], one serialisation error for each topic whose
    encoding reported one. *)
Theorem serialise_error_still_writes (order : list string) s d :
  kafka.db s = Some d → flush_ready s →
  order ≡ₚ (map_to_list (kafka.offsets s)).*1 →
  map_Forall (λ _ m, kafka.toWrite_of m ≠ ∅) (kafka.offsets s) →
  no_write_fault (size (kafka.offsets s)) d →
  ∃ s',
    kafka.writeOffsetsToDisk order s = Ret s' ∧
    store_files s' = (record_of <$> kafka.offsets s) ∪ kafka.files d ∧
    buf (kafka.writeErrors s')
    = buf (kafka.writeErrors s)
      ++ serialise_errors (kafka.range_in_order order (kafka.offsets s)).
Proof.
  intros Hd (_ & Hopen & Hcap) Horder Hne Hfault.
  unfold kafka.writeOffsetsToDisk. rewrite decide_True by done.
  pose proof (range_in_order_Permutation order _ Horder) as Hperm.
  destruct (writeOffsets_range_encoded
              (kafka.range_in_order order (kafka.offsets s)) s d)
    as (s' & d' & Hrun & Hd' & Hfiles & Herrs); [done..| | | |].
  - rewrite Hperm. apply Forall_forall. intros [t m] Htm.
    apply elem_of_map_to_list in Htm. by apply (Hne t m).
  - rewrite Hperm. apply NoDup_fst_map_to_list.
  - by rewrite Hperm, length_map_to_list.
  - exists s'. split_and!; [done| |done]. unfold store_files.
    rewrite Hd', Hfiles. f_equal. f_equal.
    rewrite <- (list_to_map_to_list (kafka.offsets s)) at 2.
    apply list_to_map_proper; [|done].
    rewrite Hperm. apply NoDup_fst_map_to_list.
Qed.

(** The loop that takes the queue's case once per queued update has
    applied them all. *)
Lemma loop_until_done_recv (orders : list (list string))
      (rest : list kafka.selected) s :
  kafka.wg s ≠ 0%nat →
  length orders = length (buf (kafka.in_ s)) →
  kafka.loop_until_done ((kafka.InRecv <$> orders) ++ rest) s
  = kafka.loop_until_done rest
      (kafka.with_offsets (merged s)
         (kafka.with_in (Chan [] (cap (kafka.in_ s)) (closed (kafka.in_ s)))
                        s)).
Proof.
  revert s. induction orders as [|order orders IH]; intros s Hwg Hlen.
  { destruct s as [? ? ? ? [b c cl] ?]. simpl in *.
    destruct b; [|done]. reflexivity. }
  destruct (buf (kafka.in_ s)) as [|p ps] eqn:Hbuf; [done|].
  injection Hlen as Hlen.
  cbn [fmap list_fmap app kafka.loop_until_done].
  rewrite decide_False by done. unfold kafka.loop_iteration.
  rewrite decide_False by done. rewrite Hbuf.
  cbn [mbind outcome_bind mret outcome_ret].
  rewrite IH by done. unfold merged. simpl. by rewrite Hbuf.
Qed.

(** X10. [close] returns on a store that can flush, with a running loop and
    an open queue, when the loop takes the queue's case once per queued
    update and once more, and [range] yields the topics of the resulting
    map in any order. *)
Theorem close_returns (orders : list (list string)) (order : list string) s :
  flush_ready s → kafka.wg s = 1%nat →
  closed (kafka.in_ s) = false →
  length orders = length (buf (kafka.in_ s)) →
  order ≡ₚ (map_to_list (merged s)).*1 →
  ∃ s',
    kafka.close ((kafka.InRecv <$> orders) ++ [kafka.InRecv order]) (Some s)
    = Ret (Some s').
Proof.
  intros ([d Hd] & Hopen & Hcap) Hwg Hin Hlen Horder.
  unfold kafka.close. rewrite Hd.
  assert (chan_close (kafka.in_ (kafka.Log kafka.SuperVerbose
                                   kafka.ClosingStore s))
          = Ret (Chan (buf (kafka.in_ s)) (cap (kafka.in_ s)) true)) as ->.
  { unfold chan_close. simpl. by rewrite Hin. }
  cbn [mbind outcome_bind].
  rewrite loop_until_done_recv by (simpl; first [lia|done]).
  set (s0 := kafka.with_offsets _ _).
  assert (kafka.wg s0 = 1%nat) as Hwg0 by done.
  assert (buf (kafka.in_ s0) = []) as Hbuf0 by done.
  assert (closed (kafka.in_ s0) = true) as Hcl0 by done.
  assert (kafka.offsets s0 = merged s) as Hoff0 by done.
  cbn [kafka.loop_until_done]. rewrite decide_False by lia.
  unfold kafka.loop_iteration. rewrite decide_False by lia.
  rewrite Hbuf0, Hcl0. unfold kafka.writeOffsetsToDisk.
  rewrite decide_True by exact Horder.
  destruct (writeOffsets_range_returns
              (kafka.range_in_order order
                 (kafka.offsets (kafka.Log kafka.Verbose kafka.FlushingToDisk s0)))
              (kafka.Log kafka.Verbose kafka.FlushingToDisk s0))
    as (sf & Hsf & (_ & Hopen' & _)).
  { split_and!; simpl; [by rewrite Hd|done..]. }
  rewrite Hsf. cbn [mbind outcome_bind mret outcome_ret].
  apply writeOffsets_range_frame in Hsf as [_ _ Fw _ _ _ _].
  simpl in Fw. rewrite decide_True by (simpl; lia).
  cbn [mbind outcome_bind]. unfold chan_close. simpl. rewrite Hopen'.
  by eexists.
Qed.

(** X11. A [Query] that returns has changed nothing but the read script of
    the disk and the in-memory entry of the topic it was asked for: the
    records, the queue, the error channel, the log and the entries of the
    other topics are as before; the entry of the topic is the mapping
    returned, or as before when the mapping returned is nil. *)
Theorem Query_touches_one_entry (t t' : string) s s'
    (m : option (gmap Z Z)) (err : option (kafka.error Cause)) :
  kafka.Query t s = Ret (s', m, err) →
  t' ≠ t →
  store_files s' = store_files s ∧
  kafka.in_ s' = kafka.in_ s ∧
  kafka.writeErrors s' = kafka.writeErrors s ∧
  kafka.printer s' = kafka.printer s ∧
  kafka.wg s' = kafka.wg s ∧
  kafka.offsets s' !! t' = kafka.offsets s !! t' ∧
  kafka.offsets s' !! t = match m with
                          | Some m => Some m
                          | None => kafka.offsets s !! t
                          end ∧
  (m = None ∨ err = None).
Proof.
  intros Hq Hne. split; [by eapply Query_files|].
  unfold kafka.Query in Hq. destruct (kafka.db s) as [d|]; [|done].
  destruct (kafka.Diskv_Read t d) as [d' r].
  destruct r as [val| |e]; [destruct (kafka.gob_decode val)|..];
    injection Hq as <- <- <-; simpl;
    rewrite ?lookup_insert_eq, ?lookup_insert_ne by done;
    split_and!; auto.
Qed.
End flush_properties.

Section sentinel_invariant.
Context {Bytes Cause : Type} `{!kafka.Gob Bytes Cause}.
Implicit Types (s : kafka.localOffsetStore Bytes Cause).
Hypothesis gob_round_trip :
  ∀ m, kafka.gob_decode (kafka.gob_encode m).1 = inr m.

Lemma merge_sentinel_free (p : kafka.progress) (m : gmap string (gmap Z Z)) :
  ¬ sentinel (kafka.offset p) →
  map_Forall (λ _ m, sentinel_free m) m →
  map_Forall (λ _ m, sentinel_free m) (kafka.merge p m).
Proof.
  intros Hp Hm. unfold kafka.merge.
  set (m' := match m !! kafka.topic p with Some _ => m | None => _ end).
  assert (map_Forall (λ _ m, sentinel_free m) m') as Hm'.
  { unfold m'. destruct (m !! kafka.topic p); [done|].
    apply map_Forall_insert_2; [|done]. intros pt o Ho.
    by rewrite lookup_empty in Ho. }
  apply map_Forall_insert_2; [|done]. intros pt o.
  destruct (decide (pt = kafka.partition p)) as [->|Hne].
  - rewrite lookup_insert_eq. by intros [= <-].
  - rewrite lookup_insert_ne by done.
    destruct (m' !! kafka.topic p) as [offs|] eqn:Hoffs; simpl.
    + by apply (Hm' _ _ Hoffs).
    + by rewrite lookup_empty.
Qed.

Lemma Query_in (t : string) s s' (m : option (gmap Z Z))
      (err : option (kafka.error Cause)) :
  kafka.Query t s = Ret (s', m, err) → kafka.in_ s' = kafka.in_ s.
Proof.
  unfold kafka.Query. destruct (kafka.db s) as [d|]; [|done].
  destruct (kafka.Diskv_Read t d) as [d' r].
  destruct r as [val| |e]; [destruct (kafka.gob_decode val)|..];
    by intros [= <- _ _].
Qed.

Lemma files_ok_clean s s' :
  files_ok s s' →
  map_Forall (λ _ b, clean_record b) (store_files s) →
  map_Forall (λ _ b, clean_record b) (store_files s').
Proof.
  intros Hok Hclean t b Hb. destruct (Hok t b Hb) as [Hold|?]; [|done].
  by apply (Hclean t b).
Qed.

Lemma loop_iteration_no_sentinel c s s' :
  kafka.loop_iteration c s = Ret s' →
  holds_no_sentinel s → holds_no_sentinel s'.
Proof.
  intros Hs (Hmap & Hqueue & Hdisk).
  pose proof (loop_iteration_files _ _ _ Hs) as Hok.
  split_and!; [| |by eapply files_ok_clean].
  - unfold kafka.loop_iteration in Hs. destruct (decide _); [done|].
    destruct c as [order|order].
    + apply writeOffsetsToDisk_frame in Hs as [Fo _ _ _ _ _ _]. by rewrite Fo.
    + destruct (buf (kafka.in_ s)) as [|p rest].
      * destruct (closed (kafka.in_ s)); [|done].
        apply bind_Ret in Hs
          as (sf & [Fo _ _ _ _ _ _]%writeOffsetsToDisk_frame & Hs).
        injection Hs as <-. simpl. by rewrite Fo.
      * injection Hs as <-. simpl.
        apply Forall_cons in Hqueue as [Hp _]. by apply merge_sentinel_free.
  - unfold kafka.loop_iteration in Hs. destruct (decide _); [done|].
    destruct c as [order|order].
    + apply writeOffsetsToDisk_frame in Hs as [_ Fi _ _ _ _ _]. by rewrite Fi.
    + destruct (buf (kafka.in_ s)) as [|p rest] eqn:Hbuf.
      * destruct (closed (kafka.in_ s)); [|done].
        apply bind_Ret in Hs
          as (sf & [_ Fi _ _ _ _ _]%writeOffsetsToDisk_frame & Hs).
        injection Hs as <-. simpl. rewrite Fi. simpl. by rewrite Hbuf.
      * injection Hs as <-. simpl. by apply Forall_cons in Hqueue as [_ ?].
Qed.

Lemma loop_until_done_no_sentinel sched s s' :
  kafka.loop_until_done sched s = Ret s' →
  holds_no_sentinel s → holds_no_sentinel s'.
Proof.
  revert s. induction sched as [|c sched IH]; intros s; simpl.
  - destruct (decide _); [|done]. by intros [= <-].
  - destruct (decide _); [by intros [= <-]|].
    intros Hs. apply bind_Ret in Hs as (s1 & Hs1 & Hs).
    eauto using loop_iteration_no_sentinel.
Qed.

(** X20. With a codec that decodes what it encoded, a store that holds no
    sentinel (in its in-memory map, in its queue, in the records of its
    disk) holds none after any calls that return: [Store] lets none into
    the queue, the loop takes none from it, and [Query] reads none from the
    disk. *)
Theorem sentinels_never_enter (calls : list kafka.call) s s' :
  kafka.run calls s = Ret s' →
  holds_no_sentinel s → holds_no_sentinel s'.
Proof.
  revert s. induction calls as [|c calls IH]; intros s; simpl.
  { by intros [= <-]. }
  intros Hrun Hs. apply bind_Ret in Hrun as (s1 & Hs1 & Hrun).
  apply (IH s1 Hrun). clear IH Hrun calls s'.
  pose proof (exec_files _ _ _ Hs1) as Hok.
  destruct Hs as (Hmap & Hqueue & Hdisk).
  destruct c as [|t p o|t|c|sched]; simpl in Hs1.
  - injection Hs1 as <-. by split_and!.
  - unfold kafka.Store in Hs1. destruct (decide _) as [|Hreal].
    { injection Hs1 as <-. by split_and!. }
    apply bind_Ret in Hs1 as (ch & Hsend & Hs1). injection Hs1 as <-.
    unfold chan_send in Hsend. destruct (closed _); [done|].
    destruct (bool_decide _); [|done]. injection Hsend as <-.
    split_and!; [done| |done]. simpl. apply Forall_app. split; [done|].
    by apply Forall_singleton.
  - apply bind_Ret in Hs1 as ([[s2 m] err] & Hq & Hs1). injection Hs1 as <-.
    simpl. split_and!; [| |by eapply files_ok_clean].
    + unfold kafka.Query in Hq. destruct (kafka.db s) as [d|] eqn:Hd; [|done].
      unfold kafka.Diskv_Read in Hq.
      assert (∀ val, kafka.files d !! t = Some val →
                match kafka.gob_decode val with
                | inr decoded => sentinel_free decoded
                | inl _ => True
                end) as Hval.
      { intros val Hv. unfold store_files in Hdisk. rewrite Hd in Hdisk.
        destruct (Hdisk t val Hv) as (m0 & -> & Hfree).
        by rewrite gob_round_trip. }
      destruct (kafka.rfail d) as [|[e|] fs];
        [|by injection Hq as <- _ _|];
        (destruct (kafka.files d !! t) as [val|] eqn:Hv;
         [specialize (Hval val eq_refl);
          destruct (kafka.gob_decode val) as [e|decoded]|];
         injection Hq as <- _ _; simpl; try done;
         apply map_Forall_insert_2; try done;
         intros pt o Ho; by rewrite lookup_empty in Ho).
    + by rewrite (Query_in _ _ _ _ _ Hq).
  - by eapply loop_iteration_no_sentinel.
  - apply bind_Ret in Hs1 as (r & Hc & Hs1). injection Hs1 as <-.
    destruct r as [s2|]; [|by split_and!]. simpl.
    unfold kafka.close in Hc. destruct (kafka.db s); [|by injection Hc as <-].
    apply bind_Ret in Hc as (ch & Hin & Hc).
    apply bind_Ret in Hc as (s3 & Hs3 & Hc).
    apply bind_Ret in Hc as (ch' & _ & Hc). injection Hc as <-.
    unfold chan_close in Hin. destruct (closed _); [done|].
    injection Hin as <-.
    apply loop_until_done_no_sentinel in Hs3; [|by split_and!].
    by destruct Hs3 as (? & ? & ?).
Qed.
End sentinel_invariant.

(** * Further properties of package main *)

Section run_properties.
Context {Bytes Cause Msg Time Regexp : Type}
        `{!main.Codec Bytes Cause Msg Time Regexp}.
Variable tm : gmap string string.
Variable searchExpression : option Regexp.
Variable reversed : bool.

(** X12. In a run that starts uncancelled, the offsets committed are those
    of the events delivered before the first cancellation signal or
    closing of the channel for which [process] returns no error, in the
    order of delivery, each committed once; and the topics written to are
    the topics of these events, in the same order. *)
Theorem commits_follow_delivery (sels : list (main.selected Bytes Time)) :
  committed (main.loop tm searchExpression reversed sels false).1
  = filter (processes tm searchExpression reversed) (live_events sels) ∧
  written (main.loop tm searchExpression reversed sels false).1
  = main.Topic <$> filter (processes tm searchExpression reversed)
                          (live_events sels).
Proof.
  induction sels as [|sel sels [IHc IHw]]; [done|].
  destruct sel as [|event|]; simpl.
  - by rewrite loop_cancelled.
  - pose proof (eq_refl (processes tm searchExpression reversed event)) as Hp.
    unfold processes at 2 in Hp.
    destruct (main.process _ event _ _) as [output [err|]];
      destruct (main.loop _ _ _ sels false) as [effs st]; simpl in *.
    + rewrite !filter_cons_False by (rewrite Hp; simpl; tauto). done.
    + rewrite !filter_cons_True by (by rewrite Hp). rewrite fmap_cons.
      by rewrite IHc, IHw.
  - done.
Qed.

(** X13. Where the loop stands after any input: it has returned exactly
    when the closing of the channel was delivered; otherwise it is still
    receiving, cancelled exactly when it started cancelled or the
    cancellation signal was delivered. *)
Theorem loop_returns_on_close_only (sels : list (main.selected Bytes Time))
    (c : bool) :
  (main.loop tm searchExpression reversed sels c).2
  = if existsb is_closed sels then main.Returned
    else main.Looping (c || existsb is_done sels).
Proof.
  revert c. induction sels as [|sel sels IH]; intros c.
  { simpl. by rewrite orb_false_r. }
  destruct sel as [|event|]; simpl.
  - specialize (IH true). destruct c; simpl;
      destruct (main.loop _ _ _ sels true) as [effs st]; simpl in *;
      rewrite IH; by rewrite ?orb_true_r.
  - specialize (IH c). destruct c; simpl.
    + by destruct (main.loop _ _ _ sels true) as [effs st].
    + destruct (main.process _ event _ _) as [output [err|]];
        by destruct (main.loop _ _ _ sels false) as [effs st].
  - done.
Qed.
End run_properties.

Section process_errors.
Context {Bytes Cause Msg Time Regexp : Type}
        `{!main.Codec Bytes Cause Msg Time Regexp}.

(** X14. The error of [process] does not depend on the pattern or on
    [reverse]: filtering neither causes nor hides an error. And [process]
    never returns an output together with an error. *)
Theorem process_error_ignores_filter (messageType : string)
    (event : main.Event Bytes Time) (search : option Regexp) (reverse : bool) :
  (main.process messageType event search reverse).2
  = (main.process messageType event None false).2 ∧
  ((main.process messageType event search reverse).1 = None ∨
   (main.process messageType event search reverse).2 = None).
Proof.
  unfold main.process.
  destruct (main.loader_Get messageType) as [err|msg]; [by split; [|left]|].
  destruct (main.proto_Unmarshal _ msg) as [err|msg']; [by split; [|left]|].
  destruct (main.marshaller_Marshal msg' _) as [err|output];
    [by split; [|left]|].
  destruct search as [re|]; [|by split; [|right]].
  by destruct (bool_decide _); split; [|right| |right].
Qed.
End process_errors.

Section topics_properties.
Context {Time : Type}.

Lemma foldl_insert_const_lookup {V : Type} (v : V) (keys : list string)
      (acc : gmap string V) (t : string) :
  foldl (λ m k, <[k := v]> m) acc keys !! t
  = if decide (t ∈ keys) then Some v else acc !! t.
Proof.
  revert acc. induction keys as [|k keys IH]; intros acc; cbn [foldl].
  { destruct (decide _) as [Hin|]; [by inversion Hin|done]. }
  rewrite IH. destruct (decide (t ∈ keys)) as [Hin|Hnin].
  - by rewrite decide_True by (by apply list_elem_of_further).
  - destruct (decide (t = k)) as [->|Hne].
    + rewrite lookup_insert_eq. by rewrite decide_True by apply list_elem_of_here.
    + rewrite lookup_insert_ne by done.
      rewrite decide_False; [done|]. by intros [?|?]%elem_of_cons.
Qed.

Lemma range_in_order_keys {V : Type} (order : list string)
      (m : gmap string V) (t : string) :
  order ≡ₚ (map_to_list m).*1 →
  t ∈ (kafka.range_in_order order m).*1 ↔ is_Some (m !! t).
Proof.
  intros Horder. rewrite (range_in_order_Permutation _ _ Horder).
  rewrite list_elem_of_fmap. split.
  - intros ([k v] & -> & Hkv%elem_of_map_to_list). by eexists.
  - intros [v Hv]. exists (t, v). split; [done|].
    by apply elem_of_map_to_list.
Qed.

(** X15. [getTopics] gives the checkpoint to every topic of the topic map
    and to no other, whatever the order in which [range] yields the
    topics. *)
Theorem getTopics_covers_the_map (order : list string)
    (topicMap : gmap string string) (cp : main.Checkpoint Time) :
  order ≡ₚ (map_to_list topicMap).*1 →
  main.getTopics order topicMap cp = (λ _, cp) <$> topicMap.
Proof.
  intros Horder. apply map_eq. intros t. unfold main.getTopics.
  rewrite <- (foldl_fmap (λ m k, <[k := cp]> m) _ _ fst).
  rewrite foldl_insert_const_lookup, lookup_fmap, lookup_empty.
  destruct (decide _) as [Hin|Hnin].
  - apply range_in_order_keys in Hin as [v ->]; done.
  - destruct (topicMap !! t) eqn:Ht; [|done]. exfalso. apply Hnin.
    apply range_in_order_keys; [done|]. by rewrite Ht.
Qed.
End topics_properties.

Section writers_properties.
Context {Cause : Type} `{!main.Paths}.
Implicit Types (os : main.OS Cause).

Lemma open_writers_success (root : string) (keys : list string)
      (acc w : gmap string main.Writer) os os' (closable : bool) (t : string) :
  main.open_writers root keys acc os = (os', (Some w, closable, None)) →
  closable = true ∧
  w !! t = if decide (t ∈ keys) then Some (main.OsFile (main.Join root t))
           else acc !! t.
Proof.
  revert acc os. induction keys as [|k keys IH]; intros acc os Hw.
  { injection Hw as _ <- <-. split; [done|].
    destruct (decide _) as [Hin|]; [by inversion Hin|done]. }
  cbn [main.open_writers] in Hw.
  destruct (main.os_call _ os) as [os1 [err|]]; [done|].
  apply IH in Hw as [-> ->]. split; [done|].
  destruct (decide (t ∈ keys)) as [Hin|Hnin].
  - by rewrite decide_True by (by apply list_elem_of_further).
  - destruct (decide (t = k)) as [->|Hne].
    + rewrite lookup_insert_eq.
      by rewrite decide_True by apply list_elem_of_here.
    + rewrite lookup_insert_ne by done.
      rewrite decide_False; [done|]. by intros [?|?]%elem_of_cons.
Qed.

(** The writers [getOutputWriters] returns, topic by topic. *)
Lemma getOutputWriters_lookup {V : Type} (dir : main.Flag string)
    (topics : gmap string V) (order : list string) os os'
    (w : gmap string main.Writer) (closable : bool) (t : string) :
  order ≡ₚ (map_to_list topics).*1 →
  main.getOutputWriters dir topics order os = (os', (Some w, closable, None)) →
  w !! t = (λ _, writer_for dir t) <$> topics !! t ∧
  closable = negb (main.IsEmpty (main.Get dir)).
Proof.
  intros Horder. unfold main.getOutputWriters, writer_for.
  pose proof (range_in_order_keys order topics t Horder) as Hkeys.
  destruct (main.IsEmpty (main.Get dir)).
  - intros Hw. injection Hw as _ <- <-. split; [|done].
    rewrite foldl_insert_const_lookup, lookup_empty.
    destruct (decide _) as [[v ->]%Hkeys|Hnin]; [done|].
    destruct (topics !! t) eqn:Ht; [|done]. exfalso. apply Hnin, Hkeys.
    by eexists.
  - destruct (main.os_call _ os) as [os1 [err|]]; [done|].
    intros [-> ->]%(open_writers_success _ _ _ _ _ _ _ t). split; [|done].
    rewrite lookup_empty.
    destruct (decide _) as [[v ->]%Hkeys|Hnin]; [done|].
    destruct (topics !! t) eqn:Ht; [|done]. exfalso. apply Hnin, Hkeys.
    by eexists.
Qed.

(** X16. When [getOutputWriters] returns without error, every topic it was
    given has a writer and no other topic has one: the discarding writer or
    standard output when the directory is empty (as the flag was set or
    not), else the file of the topic under the directory; and the writers
    are reported closable exactly when the directory is not empty. *)
Theorem getOutputWriters_covers_topics {V : Type} (dir : main.Flag string)
    (topics : gmap string V) (order : list string) os os'
    (w : gmap string main.Writer) (closable : bool) :
  order ≡ₚ (map_to_list topics).*1 →
  main.getOutputWriters dir topics order os = (os', (Some w, closable, None)) →
  w = map_imap (λ t _, Some (writer_for dir t)) topics ∧
  closable = negb (main.IsEmpty (main.Get dir)).
Proof.
  intros Horder Hw. split.
  - apply map_eq. intros t. rewrite map_lookup_imap.
    destruct (getOutputWriters_lookup dir topics order os os' w closable t)
      as [-> _]; [done..|]. by destruct (topics !! t).
  - by destruct (getOutputWriters_lookup dir topics order os os' w closable "")
      as [_ ->].
Qed.

Lemma closeFile_calls (file : string) os :
  ∃ r1 r2, main.calls (main.closeFile file os)
           = main.calls os ++ [(main.Sync file, r1); (main.Close file, r2)].
Proof.
  unfold main.closeFile, main.os_call.
  destruct (main.faults os) as [|[e1|] [|[e2|] fs]]; simpl;
    do 2 eexists; by rewrite <- app_assoc.
Qed.

Lemma close_each_grows (files : list string) os os' :
  main.close_each (main.OsFile <$> files) os = Ret os' →
  ∃ more, main.calls os' = main.calls os ++ more.
Proof.
  revert os. induction files as [|file files IH]; intros os Hr.
  - injection Hr as <-. exists []. by rewrite app_nil_r.
  - simpl in Hr. apply IH in Hr as [more Hmore].
    destruct (closeFile_calls file os) as (r1 & r2 & Hc).
    rewrite Hc, <- app_assoc in Hmore. by eexists.
Qed.

(** Closing writers that are all files returns, and [Close] has been
    called on each of them. *)
Lemma close_each_files (files : list string) os :
  ∃ os', main.close_each (main.OsFile <$> files) os = Ret os' ∧
         ∀ f, f ∈ files → main.Close f ∈ (main.calls os').*1.
Proof.
  revert os. induction files as [|file files IH]; intros os.
  { exists os. split; [done|]. intros f Hf. by inversion Hf. }
  simpl. destruct (IH (main.closeFile file os)) as (os' & Hrun & Hclose).
  exists os'. split; [done|]. intros f [->|Hf]%elem_of_cons; [|by apply Hclose].
  apply close_each_grows in Hrun as [more Hmore].
  destruct (closeFile_calls file os) as (r1 & r2 & Hc).
  rewrite Hmore, Hc, !fmap_app. simpl.
  apply elem_of_app. left. apply elem_of_app. right.
  apply list_elem_of_further, list_elem_of_here.
Qed.

(** X17. The closing at the end of [main] cannot panic on what the two
    getters returned: when [getLogWriter] and [getOutputWriters] return
    without error, the type assertions on the log writer and on every
    output writer hold whenever the writers are reported closable, so both
    closing steps return; and then [Close] has been called on the file of
    every topic. *)
Theorem closing_never_panics {V : Type} (logFlag dir : main.Flag string)
    (topics : gmap string V) (order order' : list string)
    os0 os1 os2 os3 (logFile : main.Writer) (closableLog : bool)
    (w : gmap string main.Writer) (closable : bool) :
  order ≡ₚ (map_to_list topics).*1 →
  order' ≡ₚ (map_to_list w).*1 →
  main.getLogWriter logFlag os0 = (os1, (Some logFile, closableLog, None)) →
  main.getOutputWriters dir topics order os2 = (os3, (Some w, closable, None)) →
  (∃ os4, main.close_log logFile closableLog os3 = Ret os4) ∧
  (∃ os5, main.close_writers w closable order' os3 = Ret os5 ∧
          (closable = false ∨
           ∀ t, is_Some (topics !! t) →
                main.Close (main.Join (main.Get dir) t)
                ∈ (main.calls os5).*1)).
Proof.
  intros Horder Horder' Hlog Hout. split.
  - unfold main.getLogWriter in Hlog. unfold main.close_log.
    destruct (main.IsEmpty (main.Get logFlag)).
    + destruct (main.IsSet logFlag); injection Hlog as _ _ <-; by eexists.
    + destruct (main.os_call _ os0) as [os [err|]]; [done|].
      injection Hlog as _ <- <-. by eexists.
  - unfold main.close_writers.
    assert (∀ t, w !! t = (λ _, writer_for dir t) <$> topics !! t ∧
                 closable = negb (main.IsEmpty (main.Get dir))) as Hw.
    { intros t. by eapply getOutputWriters_lookup. }
    destruct closable; [|exists os3; by split; [|left]].
    assert (main.IsEmpty (main.Get dir) = false) as Hroot.
    { destruct (Hw "") as [_ Hc]. by destruct (main.IsEmpty _). }
    pose proof (range_in_order_Permutation order' w Horder') as Hperm.
    set (entries := kafka.range_in_order order' w) in *.
    assert (entries.*2
            = main.OsFile <$> ((λ kv, main.Join (main.Get dir) kv.1) <$> entries))
      as ->.
    { assert (∀ kv, kv ∈ entries →
                kv.2 = main.OsFile (main.Join (main.Get dir) kv.1)) as Hall.
      { intros [k wr] Hk. rewrite Hperm in Hk.
        apply elem_of_map_to_list in Hk. destruct (Hw k) as [Hk' _].
        rewrite Hk in Hk'. unfold writer_for in Hk'. rewrite Hroot in Hk'.
        destruct (topics !! k); simpl in *; congruence. }
      clear -Hall. induction entries as [|[k wr] entries IH]; [done|].
      pose proof (Hall (k, wr) ltac:(apply list_elem_of_here)) as Hk.
      simpl in *. rewrite Hk.
      f_equal. apply IH. intros kv Hkv. by apply Hall, list_elem_of_further. }
    destruct (close_each_files
                ((λ kv, main.Join (main.Get dir) kv.1) <$> entries) os3)
      as (os5 & Hrun & Hclose).
    exists os5. split; [done|]. right. intros t [v Ht]. apply Hclose.
    apply list_elem_of_fmap. destruct (Hw t) as [Hwt _]. rewrite Ht in Hwt.
    eexists (t, _). split; [done|]. rewrite Hperm.
    by apply elem_of_map_to_list.
Qed.
End writers_properties.

Section tls_properties.
Context {Cause Cert Pool Bytes : Type} `{!main.Paths}.
Variable LoadX509KeyPair : string → string → Cause + Cert.
Variable ReadFile : string → Cause + Bytes.
Variable AppendCertsFromPEM : Bytes → option Pool.

(** X18. A configuration that [configureTLS] returns skips the
    verification of the server exactly when no CA certificate was named,
    and otherwise carries the pool made from the CA file; it carries the
    client certificate loaded from the named certificate and key when a
    client certificate was named, and no certificate otherwise. *)
Theorem configureTLS_config (clientCert clientKey caCert : string)
    (conf : main.Config Cert Pool) :
  main.configureTLS LoadX509KeyPair ReadFile AppendCertsFromPEM
                    clientCert clientKey caCert = (Some conf, None) →
  main.InsecureSkipVerify conf = main.IsEmpty caCert ∧
  match main.RootCAs conf with
  | None => main.IsEmpty caCert = true
  | Some pool =>
      main.IsEmpty caCert = false ∧
      ∃ ca, ReadFile caCert = inr ca ∧ AppendCertsFromPEM ca = Some pool
  end ∧
  match main.Certificates conf with
  | [] => main.IsEmpty clientCert = true
  | [certificate] =>
      main.IsEmpty clientCert = false ∧ main.IsEmpty clientKey = false ∧
      LoadX509KeyPair clientCert clientKey = inr certificate
  | _ => False
  end.
Proof.
  unfold main.configureTLS.
  destruct (main.IsEmpty clientCert); simpl.
  - destruct (main.IsEmpty caCert); [by intros [= <-]|].
    destruct (ReadFile caCert) as [err|ca]; [done|].
    destruct (AppendCertsFromPEM ca) as [pool|] eqn:Hpool; [|done].
    intros [= <-]. simpl. split_and!; try done. by exists ca.
  - destruct (main.IsEmpty clientKey); [done|].
    destruct (LoadX509KeyPair clientCert clientKey) as [err|cert]; [done|].
    destruct (main.IsEmpty caCert); [by intros [= <-]|].
    destruct (ReadFile caCert) as [err|ca]; [done|].
    destruct (AppendCertsFromPEM ca) as [pool|] eqn:Hpool; [|done].
    intros [= <-]. simpl. split_and!; try done. by exists ca.
Qed.

End tls_properties.

(** * Closed runs of the further properties *)

Ltac by_evaluation := apply (bool_decide_unpack _); vm_compute; reflexivity.

Lemma loop_consumes_queue_in_order_witness :
  ∃ s', kafka.run (recv_turns [[]; []; []]) sample.queued = Ret s' ∧
        offset_of (kafka.offsets s') "orders" 0 = Some 9 ∧
        offset_of (kafka.offsets s') "orders" 1 = Some 3.
Proof.
  destruct (loop_consumes_queue_in_order sample.queued [[]; []; []] "orders" 0)
    as (s' & Hrun & _ & Hzero & _); [by vm_compute|reflexivity|].
  destruct (loop_consumes_queue_in_order sample.queued [[]; []; []] "orders" 1)
    as (s'' & Hrun' & _ & Hone & _); [by vm_compute|reflexivity|].
  exists s'. split; [exact Hrun|]. split; [exact Hzero|].
  rewrite Hrun in Hrun'. injection Hrun' as <-. exact Hone.
Defined.

Lemma stores_fill_the_queue_witness :
  kafka.run (store_calls (replicate 100 (kafka.Progress "orders" 0 5)))
            (kafka.newLocalOffsetStore [] sample.empty_disk)
  = Ret (kafka.with_in
           (Chan (replicate 100 (kafka.Progress "orders" 0 5)) 100 false)
           (kafka.newLocalOffsetStore [] sample.empty_disk)) ∧
  kafka.run (store_calls (replicate 101 (kafka.Progress "orders" 0 5)))
            (kafka.newLocalOffsetStore [] sample.empty_disk)
  = Stuck.
Proof.
  assert (∀ n, Forall (λ p, ¬ sentinel (kafka.offset p))
                      (replicate n (kafka.Progress "orders" 0 5))) as Hreal.
  { intros n. apply Forall_replicate. by_evaluation. }
  split.
  - exact (stores_fill_the_queue
             (kafka.newLocalOffsetStore [] sample.empty_disk)
             (replicate 100 (kafka.Progress "orders" 0 5))
             eq_refl ltac:(by vm_compute) ltac:(vm_compute; lia) (Hreal 100%nat)).
  - exact (stores_fill_the_queue
             (kafka.newLocalOffsetStore [] sample.empty_disk)
             (replicate 101 (kafka.Progress "orders" 0 5))
             eq_refl ltac:(by vm_compute) ltac:(vm_compute; lia) (Hreal 101%nat)).
Defined.

Lemma close_applies_every_queued_update_witness :
  ∃ s',
    kafka.close [kafka.InRecv []; kafka.InRecv []; kafka.InRecv [];
                 kafka.InRecv ["orders"%string]] (Some sample.queued)
    = Ret (Some s') ∧
    offset_of (kafka.offsets s') "orders" 0 = Some 9 ∧
    buf (kafka.in_ s') = [] ∧ closed (kafka.in_ s') = true ∧
    kafka.wg s' = 0%nat ∧ closed (kafka.writeErrors s') = true.
Proof.
  assert (∃ s',
            kafka.close [kafka.InRecv []; kafka.InRecv []; kafka.InRecv [];
                         kafka.InRecv ["orders"%string]] (Some sample.queued)
            = Ret (Some s')) as [s' Hclose].
  { eexists. vm_compute. reflexivity. }
  exists s'. split; [exact Hclose|].
  exact (close_applies_every_queued_update _ sample.queued s' "orders" 0
           ltac:(by eexists) eq_refl Hclose).
Defined.

Lemma closed_store_rejects_calls_witness :
  ∃ s',
    kafka.close [kafka.InRecv []; kafka.InRecv []; kafka.InRecv [];
                 kafka.InRecv ["orders"%string]] (Some sample.queued)
    = Ret (Some s') ∧
    kafka.Store "orders" 0 11 s' = Panicked ∧
    kafka.close [] (Some s') = Panicked ∧
    kafka.Store "orders" 0 sarama.OffsetOldest s' = Ret s' ∧
    kafka.Store "orders" 0 sarama.OffsetNewest s' = Ret s'.
Proof.
  assert (∃ s',
            kafka.close [kafka.InRecv []; kafka.InRecv []; kafka.InRecv [];
                         kafka.InRecv ["orders"%string]] (Some sample.queued)
            = Ret (Some s')) as [s' Hclose].
  { eexists. vm_compute. reflexivity. }
  exists s'. split; [exact Hclose|].
  eapply (closed_store_rejects_calls _ [] sample.queued s' "orders" 0 11);
    [by eexists|by_evaluation|exact Hclose].
Defined.

Lemma close_without_start_drops_queue_witness :
  ∃ s',
    kafka.close [] (Some sample.idle) = Ret (Some s') ∧
    buf (kafka.in_ s') = sample.queue ∧
    kafka.offsets s' = ∅ ∧ store_files s' = ∅ ∧
    closed (kafka.in_ s') = true ∧ closed (kafka.writeErrors s') = true.
Proof.
  exact (close_without_start_drops_queue [] sample.idle
           ltac:(by eexists) eq_refl eq_refl eq_refl).
Defined.

Lemma flush_only_adds_witness :
  ∃ s',
    kafka.writeOffsetsToDisk ["payments"; "orders"]%string
                             (sample.scenario_on sample.full_disk) = Ret s' ∧
    kafka.offsets s' = sample.scenario_offsets ∧
    buf (kafka.in_ s') = [] ∧
    dom (store_files s') = {["payments"%string]} ∧
    length (buf (kafka.writeErrors s')) = 1%nat.
Proof.
  assert (∃ s',
            kafka.writeOffsetsToDisk ["payments"; "orders"]%string
              (sample.scenario_on sample.full_disk) = Ret s' ∧
            dom (store_files s') = {["payments"%string]} ∧
            length (buf (kafka.writeErrors s')) = 1%nat)
    as (s' & Hflush & Hdom & Herrs).
  { eexists. split_and!; vm_compute; reflexivity. }
  destruct (flush_only_adds _ _ s' Hflush) as (Hoffs & Hin & _).
  exists s'. split_and!; [exact Hflush|exact Hoffs|by rewrite Hin|done..].
Defined.

Lemma flush_writes_every_topic_witness :
  kafka.run sample.scenario_calls sample.fresh
  = Ret (sample.scenario_on sample.empty_disk) ∧
  ∃ s',
    kafka.writeOffsetsToDisk ["payments"; "orders"]%string
                             (sample.scenario_on sample.empty_disk) = Ret s' ∧
    store_files s'
    = {["orders" := [(1, 20); (0, 10)]; "payments" := [(0, 5)]]} ∧
    buf (kafka.writeErrors s') = [].
Proof.
  split; [vm_compute; reflexivity|].
  destruct (flush_writes_every_topic ["payments"; "orders"]%string
              (sample.scenario_on sample.empty_disk) sample.empty_disk)
    as (s' & Hflush & Hfiles & Herrs);
    [reflexivity|by_evaluation|by_evaluation|by_evaluation|].
  exists s'. split_and!; [exact Hflush| |by rewrite Herrs].
  rewrite Hfiles. vm_compute. reflexivity.
Defined.

Lemma flush_then_Query_round_trip_witness :
  ∃ s' s'' s''',
    kafka.writeOffsetsToDisk ["orders"; "payments"]%string
                             (sample.scenario_on sample.empty_disk) = Ret s' ∧
    kafka.Query "orders" s' = Ret (s'', Some {[0 := 10; 1 := 20]}, None) ∧
    kafka.Query "payments" s' = Ret (s''', Some {[0 := 5]}, None).
Proof.
  destruct (flush_then_Query_round_trip ["orders"; "payments"]%string
              (sample.scenario_on sample.empty_disk) sample.empty_disk
              "orders" {[0 := 10; 1 := 20]})
    as (s' & s'' & Hflush & Horders);
    [apply entries_gob_round_trip|reflexivity|reflexivity|by_evaluation
    |by_evaluation|by_evaluation|vm_compute; reflexivity|].
  destruct (flush_then_Query_round_trip ["orders"; "payments"]%string
              (sample.scenario_on sample.empty_disk) sample.empty_disk
              "payments" {[0 := 5]})
    as (s1 & s''' & Hflush' & Hpayments);
    [apply entries_gob_round_trip|reflexivity|reflexivity|by_evaluation
    |by_evaluation|by_evaluation|vm_compute; reflexivity|].
  rewrite Hflush in Hflush'. injection Hflush' as <-.
  exists s', s'', s'''. split_and!; [exact Hflush| |].
  - rewrite Horders. vm_compute. reflexivity.
  - rewrite Hpayments. vm_compute. reflexivity.
Defined.

Lemma failed_write_is_isolated_witness :
  ∃ s',
    kafka.writeOffsetsToDisk ["orders"; "payments"]%string
                             (sample.scenario_on sample.full_disk) = Ret s' ∧
    store_files s' !! "orders" = Some [(1, 20); (0, 10)] ∧
    buf (kafka.writeErrors s')
    = [kafka.Wrapf "no space left on device"%string
                   (kafka.FailedToWrite "payments" {[0 := 5]})].
Proof.
  destruct (failed_write_is_isolated ["orders"%string] [] "payments" "orders"
              {[0 := 5]}
              (sample.scenario_on sample.full_disk) sample.full_disk
              "no space left on device"%string)
    as (s' & Hflush & Hfiles & Herrs);
    [reflexivity|by split_and!; [eexists|..]|by_evaluation|by_evaluation
    |vm_compute; reflexivity|reflexivity|by_evaluation|].
  exists s'. split_and!; [exact Hflush| |].
  - rewrite Hfiles. vm_compute. reflexivity.
  - rewrite Herrs. vm_compute. reflexivity.
Defined.

Lemma close_returns_witness :
  ∃ s',
    kafka.close [kafka.InRecv []; kafka.InRecv []; kafka.InRecv [];
                 kafka.InRecv ["orders"%string]] (Some sample.queued)
    = Ret (Some s').
Proof.
  apply (close_returns [[]; []; []] ["orders"%string] sample.queued);
    [by split_and!; [eexists|..]|reflexivity|reflexivity|reflexivity
    |by_evaluation].
Defined.

Lemma Query_touches_one_entry_witness :
  ∃ s',
    kafka.Query "payments" (sample.scenario_on sample.empty_disk)
    = Ret (s', Some ∅, None) ∧
    kafka.offsets s' !! "orders" = Some {[0 := 10; 1 := 20]} ∧
    kafka.offsets s' !! "payments" = Some ∅ ∧
    store_files s' = ∅.
Proof.
  assert (∃ s', kafka.Query "payments" (sample.scenario_on sample.empty_disk)
                = Ret (s', Some ∅, None)) as [s' Hq].
  { eexists. vm_compute. reflexivity. }
  destruct (Query_touches_one_entry "payments" "orders" _ s' _ _ Hq)
    as (Hfiles & _ & _ & _ & _ & Hother & Hthis & _); [done|].
  exists s'. split_and!; [exact Hq|by rewrite Hother|exact Hthis|].
  by rewrite Hfiles.
Defined.

Lemma getTopics_covers_the_map_witness :
  main.getTopics ["payments"; "orders"]%string
                 {["orders" := "Order"; "payments" := "Payment"]}%string
                 (main.NewCheckpoint (Time := Z) true)
  = {["orders" := main.NewCheckpoint true;
      "payments" := main.NewCheckpoint true]}.
Proof.
  rewrite (getTopics_covers_the_map ["payments"; "orders"]%string
             {["orders" := "Order"; "payments" := "Payment"]}%string
             (main.NewCheckpoint (Time := Z) true)) by by_evaluation.
  vm_compute. reflexivity.
Defined.

Lemma getOutputWriters_covers_topics_witness :
  ∃ os' w,
    main.getOutputWriters (main.MkFlag true "out"%string) sample.types
                          ["orders"%string] sample.quiet_os
    = (os', (Some w, true, None)) ∧
    w = {["orders" := main.OsFile "out/orders"]}.
Proof.
  assert (∃ os' w closable,
            main.getOutputWriters (main.MkFlag true "out"%string) sample.types
                                  ["orders"%string] sample.quiet_os
            = (os', (Some w, closable, None))) as (os' & w & closable & Hw).
  { do 3 eexists. vm_compute. reflexivity. }
  destruct (getOutputWriters_covers_topics
              (main.MkFlag true "out"%string) sample.types ["orders"%string]
              sample.quiet_os os' w closable) as [Hmap Hclosable];
    [by_evaluation|exact Hw|].
  exists os', w. split.
  - rewrite Hw. rewrite Hclosable. reflexivity.
  - rewrite Hmap. vm_compute. reflexivity.
Defined.

Lemma closing_never_panics_witness :
  ∃ os1 os3 w os4 os5,
    main.getLogWriter (main.MkFlag true "trubka.log"%string) sample.quiet_os
    = (os1, (Some (main.OsFile "trubka.log"), true, None)) ∧
    main.getOutputWriters (main.MkFlag true "out"%string) sample.types
                          ["orders"%string] os1
    = (os3, (Some w, true, None)) ∧
    main.close_log (main.OsFile "trubka.log") true os3 = Ret os4 ∧
    main.close_writers w true ["orders"%string] os3 = Ret os5 ∧
    main.Close "out/orders" ∈ (main.calls os5).*1.
Proof.
  assert (∃ os1 os3 w,
            main.getLogWriter (main.MkFlag true "trubka.log"%string)
                              sample.quiet_os
            = (os1, (Some (main.OsFile "trubka.log"), true, None)) ∧
            main.getOutputWriters (main.MkFlag true "out"%string) sample.types
                                  ["orders"%string] os1
            = (os3, (Some w, true, None)) ∧
            ["orders"%string] ≡ₚ (map_to_list w).*1)
    as (os1 & os3 & w & Hlog & Hout & Horder).
  { do 3 eexists. split_and!; [vm_compute; reflexivity..|by_evaluation]. }
  destruct (closing_never_panics
              (main.MkFlag true "trubka.log"%string)
              (main.MkFlag true "out"%string) sample.types
              ["orders"%string] ["orders"%string]
              sample.quiet_os os1 os1 os3 (main.OsFile "trubka.log") true
              w true)
    as ([os4 Hcl] & os5 & Hcw & [Hno|Hclosed]);
    [by_evaluation|exact Horder|exact Hlog|exact Hout|done|].
  exists os1, os3, w, os4, os5. split_and!; [done..|].
  apply (Hclosed "orders"%string). by eexists.
Defined.

Lemma configureTLS_config_witness :
  ∃ conf,
    main.configureTLS sample.load_pair sample.read_file sample.append_pem
                      "client.pem" "client.key" "ca.pem"
    = (Some conf, None) ∧
    main.InsecureSkipVerify conf = false ∧
    main.RootCAs conf = Some ["ca.pem"%string] ∧
    main.Certificates conf = [("client.pem", "client.key")%string].
Proof.
  assert (∃ conf,
            main.configureTLS sample.load_pair sample.read_file
                              sample.append_pem
                              "client.pem" "client.key" "ca.pem"
            = (Some conf, None)) as [conf Hconf].
  { eexists. vm_compute. reflexivity. }
  destruct (configureTLS_config _ _ _ _ _ _ conf Hconf)
    as (Hskip & Hroots & Hcerts).
  exists conf. split; [exact Hconf|]. split; [exact Hskip|].
  destruct (main.RootCAs conf) as [pool|]; [|discriminate Hroots].
  destruct Hroots as (_ & ca & Hread & Happend).
  injection Hread as <-. vm_compute in Happend. injection Happend as <-.
  split; [reflexivity|].
  destruct (main.Certificates conf) as [|cert [|]]; [discriminate Hcerts| |done].
  destruct Hcerts as (_ & _ & Hload). vm_compute in Hload.
  by injection Hload as <-.
Defined.

Lemma serialise_error_still_writes_witness :
  ∃ s',
    kafka.writeOffsetsToDisk (Gob0 := sample.short_gob)
                             ["payments"; "orders"]%string
                             (sample.scenario_on sample.empty_disk) = Ret s' ∧
    store_files s' = {["orders" := [(1, 20)]; "payments" := [(0, 5)]]} ∧
    buf (kafka.writeErrors s')
    = [kafka.Wrapf "short write"%string (kafka.FailedToSerialise "orders")].
Proof.
  destruct (serialise_error_still_writes (H := sample.short_gob)
              ["payments"; "orders"]%string
              (sample.scenario_on sample.empty_disk) sample.empty_disk)
    as (s' & Hflush & Hfiles & Herrs);
    [reflexivity|by split_and!; [eexists|..]|by_evaluation|by_evaluation
    |by_evaluation|].
  exists s'. split_and!; [exact Hflush| |].
  - rewrite Hfiles. vm_compute. reflexivity.
  - rewrite Herrs. vm_compute. reflexivity.
Defined.

Lemma sentinels_never_enter_witness :
  ∃ s',
    kafka.run (sample.orders_calls
               ++ [kafka.LoopTurn (kafka.TickerC ["orders"%string]);
                   kafka.CallQuery "orders"])
              sample.fresh = Ret s' ∧
    holds_no_sentinel s'.
Proof.
  assert (∃ s',
            kafka.run (sample.orders_calls
                       ++ [kafka.LoopTurn (kafka.TickerC ["orders"%string]);
                           kafka.CallQuery "orders"])
                      sample.fresh = Ret s') as [s' Hrun].
  { eexists. vm_compute. reflexivity. }
  exists s'. split; [exact Hrun|].
  apply (sentinels_never_enter entries_gob_round_trip _ sample.fresh s' Hrun).
  split_and!; [apply map_Forall_empty|constructor|apply map_Forall_empty].
Defined.

(** C2. After [sample.partition_calls] ("payments" queried without a
    record, then [Store] on partition 0 of "orders" with 5, a sentinel and
    6, all consumed by the loop) the last offset stored that is not a
    sentinel is 6. A flush whose [range] yields "payments" first reports
    no error, and [Query] of "orders" after it returns the empty mapping:
    partition 0 has no offset. After a flush whose [range] yields "orders"
    first, [Query] of "orders" returns the mapping with 6 for
    partition 0. *)
Theorem flush_behind_empty_topic_loses_last_offset :
  ∃ s,
    kafka.run sample.partition_calls sample.fresh = Ret s ∧
    buf (kafka.in_ s) = [] ∧
    last_real (stored sample.partition_calls) = Some 6 ∧
    (∃ s1 s2,
       kafka.loop_iteration (kafka.TickerC ["payments"; "orders"]%string) s
       = Ret s1 ∧
       buf (kafka.writeErrors s1) = buf (kafka.writeErrors s) ∧
       kafka.Query "orders" s1 = Ret (s2, Some ∅, None)) ∧
    (∃ s1 s2,
       kafka.loop_iteration (kafka.TickerC ["orders"; "payments"]%string) s
       = Ret s1 ∧
       kafka.Query "orders" s1 = Ret (s2, Some {[0 := 6]}, None)).
Proof.
  eexists. split; [vm_compute; reflexivity|].
  split; [reflexivity|]. split; [vm_compute; reflexivity|].
  split.
  - do 2 eexists. split; [vm_compute; reflexivity|].
    split; vm_compute; reflexivity.
  - do 2 eexists. split; vm_compute; reflexivity.
Qed.
